(** * Cart-pole LQR / MPC notebook (mpc.ipynb): a shallow embedding

    The notebook computes with numpy [float64] arrays.  In the main
    development a float is idealised as a real number: rounding, overflow
    and NaN are not modelled, every arithmetic operation is exact.  The
    statements that depend on a law of exact arithmetic say so; module
    [F64] reads the same arithmetic in IEEE 754 binary64, where those laws
    fail, and is used to tell the two apart.

    Arrays.  A 1-D array is a list of reals.  The constant matrices of the
    notebook ([A], [B], [Q], [R], [Ad], ...) are lists of rows, as their
    literals are written.  The trajectory arrays ([X], [U], [Xtraj]) are
    only ever read and written one column at a time ([X[:, t]]), so they
    are kept as the list of their columns.

    Errors.  Python exceptions are values of [exn]; a computation that may
    raise returns a [result]. *)

From Stdlib Require Import Reals Lra Lia PrimFloat.
From stdpp Require Import base option list.

Open Scope R_scope.
Set Warnings "-inexact-float".

(** ** Exceptions *)

Inductive exn : Set :=
| ValueError    (* numpy: operands with incompatible shapes *)
| IndexError    (* numpy/cvxpy: column index out of bounds *)
| TypeError     (* numpy: arithmetic on [None] *)
| SolverError.  (* cvxpy: the solver call itself raised *)

Inductive result (T : Type) : Type :=
| Ok (v : T)
| Raise (e : exn).
Arguments Ok {T} v.
Arguments Raise {T} e.

#[global] Instance result_ret : MRet result := @Ok.
#[global] Instance result_bind : MBind result :=
  fun _ _ f m => match m with Ok v => f v | Raise e => Raise e end.

(** [for t in range(n): st = body(t, st)], stopping at the first exception. *)
Fixpoint for_range {St : Type} (body : nat -> St -> result St)
    (start n : nat) (st : St) : result St :=
  match n with
  | O => Ok st
  | S n' => st' ← body start st; for_range body (S start) n' st'
  end.

(** ** The numpy operations the notebook uses *)

Definition vec := list R.
Definition mat := list vec.

(** Inner product of two equally long 1-D arrays. *)
Definition dotp (x y : vec) : R := foldr Rplus 0 (zip_with Rmult x y).

(** Matrix (list of rows) times vector. *)
Definition mat_vec (M : mat) (x : vec) : vec := map (fun row => dotp row x) M.

Definition vadd (x y : vec) : vec := zip_with Rplus x y.
Definition vscale (x : vec) (c : R) : vec := map (fun a => a * c) x.

(** [np.dot(x, y)] on 1-D arrays: the lengths must agree. *)
Definition np_dot11 (x y : vec) : result R :=
  if Nat.eqb (length x) (length y) then Ok (dotp x y) else Raise ValueError.

(** [np.dot(M, x)] / [M.dot(x)] for a 2-D [M] and a 1-D [x]: every row of
    [M] must be as long as [x]. *)
Definition np_dot (M : mat) (x : vec) : result vec :=
  if forallb (fun row => Nat.eqb (length row) (length x)) M
  then Ok (mat_vec M x) else Raise ValueError.

(** [x + y] on 1-D arrays, with numpy broadcasting of a length-1 operand. *)
Definition np_add (x y : vec) : result vec :=
  if Nat.eqb (length x) (length y) then Ok (vadd x y)
  else match x, y with
       | [a], _ => Ok (map (fun b => a + b) y)
       | _, [b] => Ok (map (fun a => a + b) x)
       | _, _ => Raise ValueError
       end.

(** [np.eye(n)], [np.diag(d)], [M * c], [c * M] and [M1 + M2] on 2-D arrays
    of equal shape (the notebook only adds the 4x4 constants [np.eye(dim_x)] and
    [A*dt]). *)
Definition delta (i j : nat) : R := if Nat.eqb i j then 1 else 0.
Definition np_eye (n : nat) : mat :=
  map (fun i => map (fun j => delta i j) (seq 0 n)) (seq 0 n).
Definition np_diag (d : vec) : mat :=
  imap (fun i a => map (fun j => if Nat.eqb i j then a else 0)
                       (seq 0 (length d))) d.
Definition mscale (M : mat) (c : R) : mat := map (fun row => vscale row c) M.
Definition smul (c : R) (M : mat) : mat := map (map (fun a => c * a)) M.
Definition madd (M1 M2 : mat) : mat := zip_with vadd M1 M2.

(** Entry [(i, j)] of a matrix, for stating results entrywise. *)
Definition entry (M : mat) (i j : nat) : R := nth j (nth i M []) 0.

(** [np.empty]: an array whose initial contents are unspecified; [junk]
    stands for whatever the allocator left in each column (or entry). *)
Definition np_empty {T : Type} (junk : nat -> T) (n : nat) : list T :=
  map junk (seq 0 n).

(** [X[:, t]] (read) and [X[:, t] = v] (write) on a list of columns with
    [nrows] rows.  The write broadcasts a length-1 value. *)
Definition get_col (X : list vec) (t : nat) : result vec :=
  match X !! t with Some c => Ok c | None => Raise IndexError end.

Definition set_col (nrows : nat) (X : list vec) (t : nat) (v : vec)
  : result (list vec) :=
  if negb (Nat.ltb t (length X)) then Raise IndexError
  else if Nat.eqb (length v) nrows then Ok (<[t := v]> X)
  else match v with
       | [a] => Ok (<[t := replicate nrows a]> X)
       | _ => Raise ValueError
       end.

(** ** The cart-pole model (lines 72-84) *)

Module Plant.
Definition M : R := 1.        (* cart pole mass *)
Definition m : R := 1 / 10.   (* pendulum mass, 0.1 *)
Definition l : R := 1.        (* pendulum length *)
Definition g : R := 98 / 10.  (* gravity, 9.8 *)
End Plant.

Definition A : mat :=
  [ [0; 1; 0;                                          0];
    [0; 0; - Plant.m * Plant.g / Plant.M;              0];
    [0; 0; 0;                                          1];
    [0; 0; (Plant.m + Plant.M) * Plant.g / Plant.l / Plant.M; 0] ].

Definition B : mat :=
  [ [0];
    [1 / Plant.M];
    [0];
    [- 1 / Plant.l / Plant.M] ].

(** [def xdot(x,u): return np.dot(A,x)+np.dot(B,u)] *)
Definition xdot (x u : vec) : result vec :=
  ax ← np_dot A x;
  bu ← np_dot B u;
  np_add ax bu.

(** The first-order Euler update written with the total operations:
    [x + (A x + B u) h]. *)
Definition euler (x u : vec) (h : R) : vec :=
  vadd x (vscale (vadd (mat_vec A x) (mat_vec B u)) h).

(** One Euler step as the simulators write it: [x + xdot(x,u)*dt]. *)
Definition euler_step (x u : vec) (h : R) : result vec :=
  xd ← xdot x u;
  np_add x (vscale xd h).

(** ** Open-loop Euler integration (lines 105-113)

    The function receives references to the caller's arrays [x0] and [U]
    and allocates [X].  The frame below holds the three arrays the body can
    reach, so that what the body writes, and what it leaves alone, is
    explicit. *)

Record ol_frame : Type := OlFrame {
  fr_x0 : vec;       (* the caller's x0 *)
  fr_U : list vec;   (* the caller's U, by columns *)
  fr_X : list vec    (* the local X, by columns *)
}.

(** One iteration of [for t in range(steps)]. *)
Definition ol_body (dt : R) (t : nat) (f : ol_frame) : result ol_frame :=
  x ← get_col (fr_X f) t;                       (* x = X[:, t] *)
  u ← get_col (fr_U f) t;                       (* u = U[:, t] *)
  xnext ← euler_step x u dt;                    (* x + xdot(x,u)*dt *)
  X' ← set_col (length (fr_x0 f)) (fr_X f) (t + 1) xnext;
  Ok (OlFrame (fr_x0 f) (fr_U f) X').           (* X[:, t+1] = xnext *)

Definition integrateOpenLoop_frame (junk : nat -> vec)
    (x0 : vec) (U : list vec) (steps : nat) (dt : R) : result ol_frame :=
  let X := np_empty junk (steps + 1) in         (* np.empty([x0.size, steps+1]) *)
  X ← set_col (length x0) X 0 x0;               (* X[:,0] = x0 *)
  for_range (ol_body dt) 0 steps (OlFrame x0 U X).

(** The value returned to the caller: [return X]. *)
Definition integrateOpenLoop (junk : nat -> vec)
    (x0 : vec) (U : list vec) (steps : nat) (dt : R) : result (list vec) :=
  f ← integrateOpenLoop_frame junk x0 U steps dt; Ok (fr_X f).

(** ** Step size, cost weights and the discretised system
       (lines 124, 172-173 and 428-433) *)

Definition dt : R := 1 / 1000.   (* dt = 1e-3 *)

Definition Q : mat := np_diag [1; 100; 1 / 10; 1].

(** [R = 0.001*np.eye(1)] in the notebook; renamed because [R] is the type
    of the reals here. *)
Definition Rmat : mat := smul (1 / 1000) (np_eye 1).

Definition dim_x : nat := 4.
Definition dim_u : nat := 1.
Definition Ad : mat := madd (np_eye dim_x) (mscale A dt).
Definition Bd : mat := mscale B dt.
Definition Qd : mat := mscale Q dt.
Definition Rd : mat := mscale Rmat dt.

(** The stage cost of line 301:
    [np.dot(x, np.dot(Q, x)) + np.dot(u, np.dot(R, u))]. *)
Definition stage_cost (x u : vec) : result R :=
  qx ← np_dot Q x;
  xqx ← np_dot11 x qx;
  ru ← np_dot Rmat u;
  uru ← np_dot11 u ru;
  Ok (xqx + uru).

(** The discrete successor written with the total operations:
    [Ad x + Bd u]. *)
Definition discrete_step (x u : vec) : vec :=
  vadd (mat_vec Ad x) (mat_vec Bd u).

(** The plant update of the MPC loops: [Ad.dot(x) + Bd.dot(u)]. *)
Definition plant_step (x u : vec) : result vec :=
  ax ← np_dot Ad x;
  bu ← np_dot Bd u;
  np_add ax bu.

(** ** cvxpy problems (lines 453-462, 564-575 and 651-662)

    A cvxpy problem is a symbolic object: the builder cells assemble
    expression trees over the variables [X], [U] and the parameter
    [x_init].  The trees are kept as data; their meaning is given below by
    evaluation under values for the variables and the parameter. *)

Inductive var : Set := VarX | VarU.

Inductive expr : Type :=
| ECol (v : var) (k : nat)       (* X[:,k] or U[:,k] *)
| EParam                         (* x_init *)
| EMatMul (M : mat) (e : expr)   (* M @ e *)
| EAdd (e1 e2 : expr).           (* e1 + e2 *)

Inductive sexpr : Type :=
| SZero                          (* the Python number 0 *)
| SQuad (e : expr) (M : mat)     (* quad_form(e, M) *)
| SAdd (s1 s2 : sexpr).          (* s1 + s2 *)

Inductive constr : Type :=
| CEq (lhs rhs : expr)           (* lhs == rhs *)
| CAbsLe (e : expr) (b : R).     (* every entry of e within [-b, b] *)

Inductive goal : Type :=
| Minimize (s : sexpr)
| Maximize (s : sexpr).

Record Problem : Type := MkProblem {
  p_X_shape : nat * nat;         (* X = Variable((dim_x, N+1)) *)
  p_U_shape : nat * nat;         (* U = Variable((dim_u, N)) *)
  p_objective : goal;
  p_constraints : list constr
}.

(** The term the loop of a builder cell adds to the objective, and the
    dynamics constraint it appends, at index [k]. *)
Definition stage_term (k : nat) : sexpr :=
  SAdd (SQuad (ECol VarX k) Qd) (SQuad (ECol VarU k) Rd).

Definition dynamics (k : nat) : constr :=
  CEq (ECol VarX (k + 1)) (EAdd (EMatMul Ad (ECol VarX k)) (EMatMul Bd (ECol VarU k))).

(** The body of [for k in range(N)] in the input-constraint builder
    (lines 657-660).  Its last statement,
    [constraints += #TODO], is left to the reader of the notebook: [ic k]
    is the list that statement appends at index [k]. *)
Definition build_body (ic : nat -> list constr)
    (oc : sexpr * list constr) (k : nat) : sexpr * list constr :=
  let objective := SAdd (fst oc) (stage_term k) in
  let constraints := snd oc ++ [dynamics k] in
  let constraints := constraints ++ ic k in
  (objective, constraints).

Definition build_loop (ic : nat -> list constr) (N : nat) : sexpr * list constr :=
  foldl (build_body ic) (SZero, [CEq (ECol VarX 0) EParam]) (seq 0 N).

(** The input-constraint builder (lines 651-662): terminal cost
    [quad_form(X[:,N], P)], where [P] is what
    [scipy.linalg.solve_continuous_are(A, B, Q, R)] returned. *)
Definition mpc_constrained (P : mat) (ic : nat -> list constr) (N : nat) : Problem :=
  let oc := build_loop ic N in
  let objective := SAdd (fst oc) (SQuad (ECol VarX N) P) in
  MkProblem (dim_x, N + 1)%nat (dim_u, N) (Minimize objective) (snd oc).

(** The terminal-cost builder (lines 564-575): the same loop without the
    extra constraints; here the
    terminal term is the statement left open ([objective += #TODO]) and
    [qf] stands for it. *)
Definition mpc_terminal (qf : sexpr) (N : nat) : Problem :=
  let oc := build_loop (fun _ => []) N in
  MkProblem (dim_x, N + 1)%nat (dim_u, N) (Minimize (SAdd (fst oc) qf)) (snd oc).

(** Modelled from the spec: the input constraint that line 660 leaves as
    [#TODO].  The spec gives it as the elementwise bound [|u| <= u_max] on
    every [U[:,k]]. *)
Definition input_bound (u_max : R) (k : nat) : list constr :=
  [CAbsLe (ECol VarU k) u_max].

(** *** Meaning of a problem *)

Record valuation : Type := MkValuation {
  v_X : list vec;                (* X.value, by columns *)
  v_U : list vec                 (* U.value, by columns *)
}.

Definition column (v : valuation) (w : var) (k : nat) : vec :=
  match w with VarX => nth k (v_X v) [] | VarU => nth k (v_U v) [] end.

Fixpoint eval (xi : vec) (v : valuation) (e : expr) : vec :=
  match e with
  | ECol w k => column v w k
  | EParam => xi
  | EMatMul M e' => mat_vec M (eval xi v e')
  | EAdd e1 e2 => vadd (eval xi v e1) (eval xi v e2)
  end.

Definition quad_form (x : vec) (M : mat) : R := dotp x (mat_vec M x).

Fixpoint eval_s (xi : vec) (v : valuation) (s : sexpr) : R :=
  match s with
  | SZero => 0
  | SQuad e M => quad_form (eval xi v e) M
  | SAdd s1 s2 => eval_s xi v s1 + eval_s xi v s2
  end.

Definition holds (xi : vec) (v : valuation) (c : constr) : Prop :=
  match c with
  | CEq lhs rhs => eval xi v lhs = eval xi v rhs
  | CAbsLe e b => Forall (fun a => Rabs a <= b) (eval xi v e)
  end.

Definition feasible (xi : vec) (v : valuation) (p : Problem) : Prop :=
  Forall (holds xi v) (p_constraints p).

(** *** The finite-horizon problem as the spec words it *)

Fixpoint sum_upto (N : nat) (f : nat -> R) : R :=
  match N with
  | O => 0
  | S n => sum_upto n f + f n
  end.

(** sum over k = 0..N-1 of x_k^T Qd x_k + u_k^T Rd u_k, plus x_N^T P x_N,
    with Qd = Q dt and Rd = R dt. *)
Definition spec_cost (P : mat) (N : nat) (v : valuation) : R :=
  sum_upto N (fun k => quad_form (column v VarX k) (mscale Q dt)
                       + quad_form (column v VarU k) (mscale Rmat dt))
  + quad_form (column v VarX N) P.

(** x_0 = x_init, x_{k+1} = Ad x_k + Bd u_k for k = 0..N-1, and the
    additional constraints at every k. *)
Definition spec_constraints (ic : nat -> list constr) (N : nat)
    (xi : vec) (v : valuation) : Prop :=
  column v VarX 0 = xi /\
  (forall k, (k < N)%nat ->
     column v VarX (k + 1) =
     vadd (mat_vec Ad (column v VarX k)) (mat_vec Bd (column v VarU k))) /\
  (forall k, (k < N)%nat -> Forall (holds xi v) (ic k)).

(** ** The solver call, as the loops see it

    [mpc.solve(solver=OSQP, warm_start=w)] calls into cvxpy and OSQP, which
    are not part of the notebook.  What a call can do that the notebook can
    observe is: raise, or return a number and leave a value (or [None]) in
    [U.value].  The outcome of the solve is also left in [mpc.status], which
    no cell reads.  A solver is therefore any function from its own memory
    (what it keeps between calls for warm starts), the problem, the value
    of the parameter and the warm-start flag to such an outcome. *)

(** Modelled from the spec: the ways a solve can fail (section 4.5), which
    the external solver reports and the source never names. *)
Inductive failure : Set := NonConvergence | Infeasibility | NumericalFailure.

Inductive status : Set :=
| Solved
| Failed (why : failure).

(** A numpy float that need not be finite: the number [mpc.solve] returns,
    and what storing [None] into a float array leaves there. *)
Inductive xfloat : Type :=
| Finite (r : R)
| PlusInf
| MinusInf
| NaN.

Record solution : Type := MkSolution {
  sol_status : status;               (* mpc.status *)
  sol_value : xfloat;                (* the number returned *)
  sol_U : option (list vec)          (* U.value after the call *)
}.

Inductive outcome (Mem : Type) : Type :=
| Returned (sol : solution) (mem : Mem)
| Raised.
Arguments Returned {Mem} sol mem.
Arguments Raised {Mem}.

Definition solver (Mem : Type) : Type := Mem -> Problem -> vec -> bool -> outcome Mem.

(** [a[t] = v] on a 1-D array. *)
Definition set_item {T : Type} (a : list T) (t : nat) (v : T) : result (list T) :=
  if Nat.ltb t (length a) then Ok (<[t := v]> a) else Raise IndexError.

(** Storing [U[:,0].value] into one entry of a float array: [None] is
    stored as NaN, an array of one element as that element. *)
Definition scalar_of (u : option vec) : result xfloat :=
  match u with
  | None => Ok NaN
  | Some [a] => Ok (Finite a)
  | Some _ => Raise ValueError
  end.

(** [Ad.dot(x) + Bd.dot(u)] where [u] is [U[:,0].value]; numpy cannot
    multiply by [None]. *)
Definition apply_move (x : vec) (u : option vec) : result vec :=
  match u with
  | None => Raise TypeError
  | Some u0 => plant_step x u0
  end.

(** ** The MPC simulation loops (lines 591-596 and 679-684) *)

(** The notebook globals a loop touches. *)
Record nb_state (Mem : Type) : Type := MkState {
  st_mpc : Problem;                  (* mpc, with its variables X and U *)
  st_x_init : option vec;            (* x_init.value *)
  st_U : option (list vec);          (* U.value *)
  st_solver : Mem;                   (* what the solver keeps between calls *)
  st_x : vec;                        (* x *)
  st_Xtraj : list vec;               (* Xtraj, by columns *)
  st_Utraj : list xfloat;            (* Utraj *)
  st_Jtraj : list xfloat             (* Jtraj *)
}.
Arguments MkState {Mem}.
Arguments st_mpc {Mem}.
Arguments st_x_init {Mem}.
Arguments st_U {Mem}.
Arguments st_solver {Mem}.
Arguments st_x {Mem}.
Arguments st_Xtraj {Mem}.
Arguments st_Utraj {Mem}.
Arguments st_Jtraj {Mem}.

Section Loops.
Context {Mem : Type}.
Variable solve : solver Mem.

(** [x_init.value = x]; [x_init = Parameter(dim_x)] accepts only a value
    of its own shape. *)
Definition set_x_init (st : nb_state Mem) : result (nb_state Mem) :=
  if Nat.eqb (length (st_x st)) dim_x
  then Ok (MkState (st_mpc st) (Some (st_x st)) (st_U st) (st_solver st)
                   (st_x st) (st_Xtraj st) (st_Utraj st) (st_Jtraj st))
  else Raise ValueError.

(** [mpc.solve(solver=OSQP, warm_start=w)]: the returned number, and the
    globals after the call. *)
Definition call_solve (w : bool) (st : nb_state Mem) : result (xfloat * nb_state Mem) :=
  match st_x_init st with
  | None => Raise ValueError
  | Some xi =>
      match solve (st_solver st) (st_mpc st) xi w with
      | Raised => Raise SolverError
      | Returned sol mem =>
          Ok (sol_value sol,
              MkState (st_mpc st) (st_x_init st) (sol_U sol) mem
                      (st_x st) (st_Xtraj st) (st_Utraj st) (st_Jtraj st))
      end
  end.

(** [U[:,0].value]. *)
Definition first_move (st : nb_state Mem) : result (option vec) :=
  match st_U st with
  | None => Ok None
  | Some Uv => match Uv !! 0%nat with
               | Some u0 => Ok (Some u0)
               | None => Raise IndexError
               end
  end.

(** The input-constrained loop (lines 679-684), one iteration of
<<
    x_init.value = x
    Jtraj[t]=mpc.solve(solver=OSQP, warm_start=True)
    Xtraj[:,t] = x;
    Utraj[t] = U[:,0].value;
    x = Ad.dot(x) + Bd.dot(U[:,0].value)
>>
*)
Definition mpc_body_constrained (nrows : nat) (t : nat) (st : nb_state Mem)
  : result (nb_state Mem) :=
  st1 ← set_x_init st;
  Jst ← call_solve true st1;
  Jtraj ← set_item (st_Jtraj (snd Jst)) t (fst Jst);
  Xtraj ← set_col nrows (st_Xtraj (snd Jst)) t (st_x (snd Jst));
  u ← first_move (snd Jst);
  uval ← scalar_of u;
  Utraj ← set_item (st_Utraj (snd Jst)) t uval;
  u' ← first_move (snd Jst);
  x' ← apply_move (st_x (snd Jst)) u';
  Ok (MkState (st_mpc (snd Jst)) (st_x_init (snd Jst)) (st_U (snd Jst))
              (st_solver (snd Jst)) x' Xtraj Utraj Jtraj).

(** The terminal-cost loop (lines 591-596), one iteration of
<<
    Xtraj[:,t] = x;
    x_init.value = x
    Jtraj[t]=mpc.solve(solver=OSQP, warm_start=False)
    x = Ad.dot(x) + Bd.dot(U[:,0].value)
    Utraj[t] = U[:,0].value;
>>
*)
Definition mpc_body_terminal (nrows : nat) (t : nat) (st : nb_state Mem)
  : result (nb_state Mem) :=
  Xtraj ← set_col nrows (st_Xtraj st) t (st_x st);
  st1 ← set_x_init st;
  Jst ← call_solve false st1;
  Jtraj ← set_item (st_Jtraj (snd Jst)) t (fst Jst);
  u ← first_move (snd Jst);
  x' ← apply_move (st_x (snd Jst)) u;
  u' ← first_move (snd Jst);
  uval ← scalar_of u';
  Utraj ← set_item (st_Utraj (snd Jst)) t uval;
  Ok (MkState (st_mpc (snd Jst)) (st_x_init (snd Jst)) (st_U (snd Jst))
              (st_solver (snd Jst)) x' Xtraj Utraj Jtraj).

(** The globals when a loop cell starts: the problem of the cell before
    it, a parameter and variables without values, the solver's memory,
    [x = x0] and three fresh arrays. *)
Definition loop_init (jX : nat -> vec) (jU jJ : nat -> xfloat)
    (p : Problem) (mem : Mem) (x0 : vec) (steps : nat) : nb_state Mem :=
  MkState p None None mem x0
          (np_empty jX steps) (np_empty jU steps) (np_empty jJ steps).

Definition mpc_loop_constrained (jX : nat -> vec) (jU jJ : nat -> xfloat)
    (p : Problem) (mem : Mem) (x0 : vec) (steps : nat) : result (nb_state Mem) :=
  for_range (mpc_body_constrained (length x0)) 0 steps
            (loop_init jX jU jJ p mem x0 steps).

Definition mpc_loop_terminal (jX : nat -> vec) (jU jJ : nat -> xfloat)
    (p : Problem) (mem : Mem) (x0 : vec) (steps : nat) : result (nb_state Mem) :=
  for_range (mpc_body_terminal (length x0)) 0 steps
            (loop_init jX jU jJ p mem x0 steps).
End Loops.

(** *** Solvers derived from a solver, used to state what a loop reads *)

(** The same solver, except that the value it leaves in [U] is passed
    through [g]. *)
Definition tamper {Mem : Type} (g : list vec -> list vec) (solve : solver Mem) : solver Mem :=
  fun mem p xi w =>
    match solve mem p xi w with
    | Returned sol mem' =>
        Returned (MkSolution (sol_status sol) (sol_value sol) (g <$> sol_U sol)) mem'
    | Raised => Raised
    end.

(** The same solver, except that the status it reports is passed through [f]. *)
Definition restatus {Mem : Type} (f : status -> status) (solve : solver Mem) : solver Mem :=
  fun mem p xi w =>
    match solve mem p xi w with
    | Returned sol mem' =>
        Returned (MkSolution (f (sol_status sol)) (sol_value sol) (sol_U sol)) mem'
    | Raised => Raised
    end.

(** The same solver, which also writes down the problem and the parameter
    value of every call it receives. *)
Definition spy {Mem : Type} (solve : solver Mem) : solver (Mem * list (Problem * vec)) :=
  fun mem p xi w =>
    match solve (fst mem) p xi w with
    | Returned sol mem' => Returned sol (mem', snd mem ++ [(p, xi)])
    | Raised => Raised
    end.

(** Forgetting the value of [U] in the globals. *)
Definition forget_U {Mem : Type} (st : nb_state Mem) : nb_state Mem :=
  MkState (st_mpc st) (st_x_init st) None (st_solver st)
          (st_x st) (st_Xtraj st) (st_Utraj st) (st_Jtraj st).

(** Forgetting the log of a spying solver. *)
Definition unspy {Mem : Type} (st : nb_state (Mem * list (Problem * vec))) : nb_state Mem :=
  MkState (st_mpc st) (st_x_init st) (st_U st) (fst (st_solver st))
          (st_x st) (st_Xtraj st) (st_Utraj st) (st_Jtraj st).

Definition map_result {T1 T2 : Type} (f : T1 -> T2) (r : result T1) : result T2 :=
  match r with Ok v => Ok (f v) | Raise e => Raise e end.

(** *** Concrete solvers, for examples *)

(** Reports non-convergence and leaves the control 5 in every plan. *)
Definition unconverged_solver : solver unit :=
  fun _ _ _ _ =>
    Returned (MkSolution (Failed NonConvergence) (Finite 0) (Some [[5]])) tt.

(** Returns the plan of one move that applies no force. *)
Definition idle_solver : solver unit :=
  fun _ _ _ _ => Returned (MkSolution Solved (Finite 0) (Some [[0]])) tt.


(** Returns a plan of three moves: the first pushes against the cart's
    position, the other two are fixed.  Its memory counts the calls. *)
Definition braking_solver : solver nat :=
  fun mem _ xi _ =>
    Returned (MkSolution Solved (Finite 0) (Some [[- nth 0 xi 0]; [3]; [4]])) (S mem).

(** *** The loops as transition systems *)

(** [first_move_of solve w p xi a J]: some call of the solver on problem
    [p] with parameter value [xi] and warm-start flag [w] returned the
    number [J] and left in [U] a value whose first column is [[a]]. *)
Definition first_move_of {Mem : Type} (solve : solver Mem) (w : bool)
    (p : Problem) (xi : vec) (a : R) (J : xfloat) : Prop :=
  exists mem sol mem' Uv,
    solve mem p xi w = Returned sol mem' /\
    sol_U sol = Some Uv /\ Uv !! 0%nat = Some [a] /\ sol_value sol = J.

(** One successful iteration [t] of a loop, from globals [st] to [st']. *)
Definition mpc_step {Mem : Type} (solve : solver Mem) (w : bool)
    (t : nat) (st st' : nb_state Mem) : Prop :=
  exists sol mem Uv a,
    length (st_x st) = 4%nat /\
    solve (st_solver st) (st_mpc st) (st_x st) w = Returned sol mem /\
    sol_U sol = Some Uv /\ Uv !! 0%nat = Some [a] /\
    (t < length (st_Xtraj st))%nat /\ (t < length (st_Utraj st))%nat /\
    (t < length (st_Jtraj st))%nat /\
    plant_step (st_x st) [a] = Ok (st_x st') /\
    st' = MkState (st_mpc st) (Some (st_x st)) (Some Uv) mem (st_x st')
                  (<[t := st_x st]> (st_Xtraj st))
                  (<[t := Finite a]> (st_Utraj st))
                  (<[t := sol_value sol]> (st_Jtraj st)).

(** The state the plant is in after iteration [t] of a run of [m]
    iterations that ended in [st]: column [t+1] of [Xtraj], or the final
    [x] after the last iteration. *)
Definition state_after {Mem : Type} (st : nb_state Mem) (m t : nat) : option vec :=
  if Nat.ltb (t + 1) m then st_Xtraj st !! (t + 1)%nat else Some (st_x st).

(** Two results agree up to a relation on the values: both raise the same
    exception, or both return, with related values. *)
Definition result_rel {T1 T2 : Type} (Rel : T1 -> T2 -> Prop)
    (r1 : result T1) (r2 : result T2) : Prop :=
  match r1, r2 with
  | Ok v1, Ok v2 => Rel v1 v2
  | Raise e1, Raise e2 => e1 = e2
  | _, _ => False
  end.



(** What a run of [steps] iterations that returned has done at every
    iteration [t]. *)
Definition trajectory_ok {Mem : Type} (solve : solver Mem) (w : bool)
    (p : Problem) (x0 : vec) (steps : nat) (final : nb_state Mem) : Prop :=
  ((0 < steps)%nat -> st_Xtraj final !! 0%nat = Some x0) /\
  forall t, (t < steps)%nat ->
    exists xt a J,
      st_Xtraj final !! t = Some xt /\
      st_Utraj final !! t = Some (Finite a) /\
      st_Jtraj final !! t = Some J /\
      first_move_of solve w p xt a J /\
      plant_step xt [a] = Ok (discrete_step xt [a]) /\
      state_after final steps t = Some (discrete_step xt [a]).

(** *** A concrete run, for examples *)

(** [x0 = np.array([1,0,-1e-3,0])] of the MPC cells. *)
Definition x0_mpc : vec := [1; 0; - (1 / 1000); 0].

(** Array contents before the first write. *)
Definition junk_col : nat -> vec := fun _ => [0; 0; 0; 0].
Definition junk_float : nat -> xfloat := fun _ => NaN.

(** A problem with horizon 1 and the input bound 1; the terminal weight is
    the 4x4 identity. *)
Definition small_mpc : Problem := mpc_constrained (np_eye 4) (input_bound 1) 1.

(** A problem with horizon 3 and the input bound 5. *)
Definition long_mpc : Problem := mpc_constrained (np_eye 4) (input_bound 5) 3.

(** ** The rest of the notebook's code *)

(** *** Closed-loop Euler integration (lines 242-252)

    The statement [u = #TODO] is left to the reader of the notebook:
    [control K t x] stands for the expression it assigns, written from the
    gain [K], the iteration index [t] and the current state [x]. *)

Record cl_frame : Type := ClFrame {
  cf_X : list vec;   (* the local X, by columns *)
  cf_U : list vec    (* the local U, by columns *)
}.

(** One iteration of [for t in range(steps)]. *)
Definition cl_body (control : mat -> nat -> vec -> result vec) (x0 : vec) (K : mat)
    (dt : R) (t : nat) (f : cl_frame) : result cl_frame :=
  x ← get_col (cf_X f) t;                            (* x = X[:, t] *)
  u ← control K t x;                                 (* u = #TODO *)
  xnext ← euler_step x u dt;                         (* x + xdot(x,u)*dt *)
  X' ← set_col (length x0) (cf_X f) (t + 1) xnext;   (* X[:, t+1] = xnext *)
  U' ← set_col (length K) (cf_U f) t u;              (* U[:, t] = u *)
  Ok (ClFrame X' U').

Definition integrateClosedLoop (control : mat -> nat -> vec -> result vec)
    (junkX junkU : nat -> vec)
    (x0 : vec) (K : mat) (steps : nat) (dt : R) : result (list vec * list vec) :=
  let X := np_empty junkX (steps + 1) in   (* np.empty([x0.size, steps+1]) *)
  let U := np_empty junkU steps in         (* np.empty([K.shape[0], steps]) *)
  X ← set_col (length x0) X 0 x0;          (* X[:,0] = x0 *)
  f ← for_range (cl_body control x0 K dt) 0 steps (ClFrame X U);
  Ok (cf_X f, cf_U f).                     (* return X, U *)

(** Modelled from the spec: the feedback law [u = -K x] that line 248
    leaves as [#TODO], written [np.dot(-K, x)]. *)
Definition lqr_law (K : mat) (t : nat) (x : vec) : result vec :=
  np_dot (map (map Ropp) K) x.

(** *** Stage cost along a trajectory (lines 297-301) *)

(** One iteration of
<<
    x = X[:, t]
    u = U[:, t]
    q[t] = np.dot(x, np.dot(Q, x)) + np.dot(u, np.dot(R, u))
>>
*)
Definition stage_cost_body (X U : list vec) (t : nat) (q : list R) : result (list R) :=
  x ← get_col X t;
  u ← get_col U t;
  c ← stage_cost x u;
  set_item q t c.

(** [q = np.empty(steps)] followed by the loop. *)
Definition stage_cost_trace (junk : nat -> R) (X U : list vec) (steps : nat)
  : result (list R) :=
  for_range (stage_cost_body X U) 0 steps (np_empty junk steps).

(** *** Cost-to-go along a trajectory (lines 505-508) *)

(** [np.dot(x, np.dot(P, x))]. *)
Definition cost_to_go (P : mat) (x : vec) : result R :=
  px ← np_dot P x;
  np_dot11 x px.

(** One iteration of
<<
    x = Xtraj[:, k]
    p[k] = np.dot(x, np.dot(P, x))
>>
*)
Definition cost_to_go_body (P : mat) (Xtraj : list vec) (k : nat) (p : list R)
  : result (list R) :=
  x ← get_col Xtraj k;
  c ← cost_to_go P x;
  set_item p k c.

Definition cost_to_go_trace (junk : nat -> R) (P : mat) (Xtraj : list vec)
    (steps : nat) : result (list R) :=
  for_range (cost_to_go_body P Xtraj) 0 steps (np_empty junk steps).

(** *** The first builder and its loop (lines 453-462 and 478-482) *)

(** The body of [for k in range(N)] in the first builder.  Its second
    statement, [constraints += ##TODO], is left to the reader of the
    notebook: [dyn k] is the list that statement appends at index [k]. *)
Definition build_body_first (dyn : nat -> list constr)
    (oc : sexpr * list constr) (k : nat) : sexpr * list constr :=
  (SAdd (fst oc) (stage_term k), snd oc ++ dyn k).

(** The first builder: no terminal term. *)
Definition mpc_first (dyn : nat -> list constr) (N : nat) : Problem :=
  let oc := foldl (build_body_first dyn) (SZero, [CEq (ECol VarX 0) EParam]) (seq 0 N) in
  MkProblem (dim_x, N + 1)%nat (dim_u, N) (Minimize (fst oc)) (snd oc).

(** The first loop (lines 478-482), one iteration of
<<
    x_init.value = x
    Jtraj[t]=mpc.solve(solver=OSQP, warm_start=True)
    Xtraj[:,t] = x;
    x = Ad.dot(x) + Bd.dot(U[:,0].value)
>>
    The cell has no [Utraj]; that field of the globals is left as it is. *)
Definition mpc_body_first {Mem : Type} (solve : solver Mem)
    (nrows : nat) (t : nat) (st : nb_state Mem) : result (nb_state Mem) :=
  st1 ← set_x_init st;
  Jst ← call_solve solve true st1;
  Jtraj ← set_item (st_Jtraj (snd Jst)) t (fst Jst);
  Xtraj ← set_col nrows (st_Xtraj (snd Jst)) t (st_x (snd Jst));
  u ← first_move (snd Jst);
  x' ← apply_move (st_x (snd Jst)) u;
  Ok (MkState (st_mpc (snd Jst)) (st_x_init (snd Jst)) (st_U (snd Jst))
              (st_solver (snd Jst)) x' Xtraj (st_Utraj (snd Jst)) Jtraj).

Definition mpc_loop_first {Mem : Type} (solve : solver Mem)
    (jX : nat -> vec) (jU jJ : nat -> xfloat)
    (p : Problem) (mem : Mem) (x0 : vec) (steps : nat) : result (nb_state Mem) :=
  for_range (mpc_body_first solve (length x0)) 0 steps
            (loop_init jX jU jJ p mem x0 steps).

(** *** Vocabulary for the properties below *)

(** Every column reference of an expression lies within the variables'
    shapes for horizon [N]: [X] has columns [0..N], [U] has columns
    [0..N-1].  cvxpy raises IndexError on any other. *)
Fixpoint expr_in_range (N : nat) (e : expr) : bool :=
  match e with
  | ECol VarX k => Nat.leb k N
  | ECol VarU k => Nat.ltb k N
  | EParam => true
  | EMatMul _ e' => expr_in_range N e'
  | EAdd e1 e2 => expr_in_range N e1 && expr_in_range N e2
  end.

Fixpoint sexpr_in_range (N : nat) (s : sexpr) : bool :=
  match s with
  | SZero => true
  | SQuad e _ => expr_in_range N e
  | SAdd s1 s2 => sexpr_in_range N s1 && sexpr_in_range N s2
  end.

Definition constr_in_range (N : nat) (c : constr) : bool :=
  match c with
  | CEq lhs rhs => expr_in_range N lhs && expr_in_range N rhs
  | CAbsLe e _ => expr_in_range N e
  end.

Definition problem_in_range (N : nat) (p : Problem) : bool :=
  match p_objective p with
  | Minimize s | Maximize s => sexpr_in_range N s
  end && forallb (constr_in_range N) (p_constraints p).

(** Values of [X] and [U] of the declared shapes for horizon [N]. *)
Definition well_shaped (N : nat) (v : valuation) : Prop :=
  length (v_X v) = (N + 1)%nat /\ Forall (fun c => length c = 4%nat) (v_X v) /\
  length (v_U v) = N /\ Forall (fun c => length c = 1%nat) (v_U v).

(** The all-zero values for horizon [N]. *)
Definition zero_valuation (N : nat) : valuation :=
  MkValuation (replicate (N + 1) [0; 0; 0; 0]) (replicate N [0]).

(** A solver that always returns and leaves in [U] a value whose first
    column has one entry. *)
Definition solver_total {Mem : Type} (solve : solver Mem) : Prop :=
  forall mem p xi w, exists sol mem' Uv a,
    solve mem p xi w = Returned sol mem' /\
    sol_U sol = Some Uv /\ Uv !! 0%nat = Some [a].

(** Forgetting [Utraj] in the globals. *)
Definition forget_Utraj {Mem : Type} (st : nb_state Mem) : nb_state Mem :=
  MkState (st_mpc st) (st_x_init st) (st_U st) (st_solver st)
          (st_x st) (st_Xtraj st) [] (st_Jtraj st).

(** The trajectory of the Euler update from [x] under the controls [U],
    for [n] steps, as a list of states. *)
Fixpoint euler_traj (h : R) (x : vec) (U : list vec) (n : nat) : list vec :=
  match n, U with
  | S n', u :: U' => x :: euler_traj h (euler x u h) U' n'
  | _, _ => [x]
  end.

(** Frames that hold the same inputs and whose [X] arrays, of [L] columns,
    agree on the columns up to [t]. *)
Definition ol_agree (L : nat) (t : nat) (f1 f2 : ol_frame) : Prop :=
  fr_x0 f1 = fr_x0 f2 /\ fr_U f1 = fr_U f2 /\
  length (fr_X f1) = L /\ length (fr_X f2) = L /\
  forall i, (i <= t)%nat -> fr_X f1 !! i = fr_X f2 !! i.

(** The value iteration [t] of the stage-cost loop stores. *)
Definition stage_cost_at (X U : list vec) (t : nat) : result R :=
  x ← get_col X t; u ← get_col U t; stage_cost x u.

(** The value iteration [k] of the cost-to-go loop stores. *)
Definition cost_to_go_at (P : mat) (Xtraj : list vec) (k : nat) : result R :=
  x ← get_col Xtraj k; cost_to_go P x.

(** Globals that differ at most in the not yet written part (from index
    [t] on) of the three arrays of [L] entries. *)
Definition nb_agree {Mem : Type} (L : nat) (t : nat) (a b : nb_state Mem) : Prop :=
  st_mpc a = st_mpc b /\ st_x_init a = st_x_init b /\ st_U a = st_U b /\
  st_solver a = st_solver b /\ st_x a = st_x b /\
  (length (st_Xtraj a) = L /\ length (st_Xtraj b) = L /\
   forall i, (i < t)%nat -> st_Xtraj a !! i = st_Xtraj b !! i) /\
  (length (st_Utraj a) = L /\ length (st_Utraj b) = L /\
   forall i, (i < t)%nat -> st_Utraj a !! i = st_Utraj b !! i) /\
  (length (st_Jtraj a) = L /\ length (st_Jtraj b) = L /\
   forall i, (i < t)%nat -> st_Jtraj a !! i = st_Jtraj b !! i).

(** ** The same arithmetic in float64

    The definitions [A], [B], [xdot], the Euler step, [Ad], [Bd], the plant
    update and the stage cost once more, with every number an IEEE 754
    binary64 float (the kernel's primitive floats) and every operation
    rounded as numpy rounds it.  The definitions are those above, operation
    for operation.  An inner product is summed in the order [dotp] above
    sums it; the examples stated with this module have at most one
    non-zero product in each inner product, so the order in which [np.dot]
    sums does not show in them. *)

Module F64.
#[local] Open Scope float_scope.

Definition vec := list float.
Definition mat := list vec.

Definition dotp (x y : vec) : float :=
  foldr PrimFloat.add 0 (zip_with PrimFloat.mul x y).
Definition mat_vec (M : mat) (x : vec) : vec := map (fun row => dotp row x) M.
Definition vadd (x y : vec) : vec := zip_with PrimFloat.add x y.
Definition vscale (x : vec) (c : float) : vec := map (fun a => a * c) x.

Definition np_dot11 (x y : vec) : result float :=
  if Nat.eqb (length x) (length y) then Ok (dotp x y) else Raise ValueError.

Definition np_dot (M : mat) (x : vec) : result vec :=
  if forallb (fun row => Nat.eqb (length row) (length x)) M
  then Ok (mat_vec M x) else Raise ValueError.

Definition np_add (x y : vec) : result vec :=
  if Nat.eqb (length x) (length y) then Ok (vadd x y)
  else match x, y with
       | [a], _ => Ok (map (fun b => a + b) y)
       | _, [b] => Ok (map (fun a => a + b) x)
       | _, _ => Raise ValueError
       end.

Definition np_eye (n : nat) : mat :=
  map (fun i => map (fun j => if Nat.eqb i j then 1 else 0) (seq 0 n)) (seq 0 n).
Definition np_diag (d : vec) : mat :=
  imap (fun i a => map (fun j => if Nat.eqb i j then a else 0)
                       (seq 0 (length d))) d.
Definition mscale (M : mat) (c : float) : mat := map (fun row => vscale row c) M.
Definition smul (c : float) (M : mat) : mat := map (map (fun a => c * a)) M.
Definition madd (M1 M2 : mat) : mat := zip_with vadd M1 M2.

(** Lines 72-84. *)
Module Plant.
Definition M : float := 1.
Definition m : float := 0.1.
Definition l : float := 1.
Definition g : float := 9.8.
End Plant.

Definition A : mat :=
  [ [0; 1; 0;                                          0];
    [0; 0; - Plant.m * Plant.g / Plant.M;              0];
    [0; 0; 0;                                          1];
    [0; 0; (Plant.m + Plant.M) * Plant.g / Plant.l / Plant.M; 0] ].

Definition B : mat :=
  [ [0];
    [1 / Plant.M];
    [0];
    [- 1 / Plant.l / Plant.M] ].

(** [def xdot(x,u): return np.dot(A,x)+np.dot(B,u)] *)
Definition xdot (x u : vec) : result vec :=
  ax ← np_dot A x;
  bu ← np_dot B u;
  np_add ax bu.

(** [x + xdot(x,u)*dt] *)
Definition euler_step (x u : vec) (h : float) : result vec :=
  xd ← xdot x u;
  np_add x (vscale xd h).

(** Lines 124, 172-173 and 428-431. *)
Definition dt : float := 1e-3.
Definition Q : mat := np_diag [1; 100; 0.1; 1].
Definition Rmat : mat := smul 0.001 (np_eye 1).
Definition Ad : mat := madd (np_eye dim_x) (mscale A dt).
Definition Bd : mat := mscale B dt.

(** [np.dot(x, np.dot(Q, x)) + np.dot(u, np.dot(R, u))] *)
Definition stage_cost (x u : vec) : result float :=
  qx ← np_dot Q x;
  xqx ← np_dot11 x qx;
  ru ← np_dot Rmat u;
  uru ← np_dot11 u ru;
  Ok (xqx + uru).

(** [Ad.dot(x) + Bd.dot(u)] *)
Definition plant_step (x u : vec) : result vec :=
  ax ← np_dot Ad x;
  bu ← np_dot Bd u;
  np_add ax bu.

(** [x0 = np.array([1,0,-1e-3,0])] *)
Definition x0_mpc : vec := [1; 0; - 1e-3; 0].

End F64.

(** ** Proof automation *)

(** Case analysis on the first computation of a sequence that returned. *)
Ltac inv_bind H :=
  match type of H with
  | mbind _ ?m = Ok _ =>
      let E := fresh "E" in
      destruct m eqn:E;
      [match type of H with
       | mbind ?f (Ok ?v) = ?r => change (f v = r) in H; cbv beta in H
       end
      |cbv [mbind result_bind] in H; discriminate H]
  end.

(** * Properties *)

(** ** The error monad *)

Lemma bind_Ok {T1 T2 : Type} (v : T1) (f : T1 -> result T2) :
  mbind f (Ok v) = f v.
Proof. reflexivity. Qed.

Lemma bind_Raise {T1 T2 : Type} (e : exn) (f : T1 -> result T2) :
  mbind f (Raise e) = Raise e.
Proof. reflexivity. Qed.

(** ** The numpy layer *)

Lemma np_dot_ok (M : mat) (x : vec) :
  Forall (fun row => length row = length x) M ->
  np_dot M x = Ok (mat_vec M x).
Proof.
  intros H. unfold np_dot.
  replace (forallb _ M) with true; [reflexivity|].
  symmetry. apply forallb_forall. intros row Hin.
  apply Nat.eqb_eq. rewrite Forall_forall in H. apply H.
  apply list_elem_of_In. exact Hin.
Qed.

Lemma mat_vec_length (M : mat) (x : vec) : length (mat_vec M x) = length M.
Proof. unfold mat_vec. apply length_map. Qed.

Lemma np_add_ok (x y : vec) :
  length x = length y -> np_add x y = Ok (vadd x y).
Proof. intros H. unfold np_add. rewrite H, Nat.eqb_refl. reflexivity. Qed.

Lemma vadd_length (x y : vec) :
  length x = length y -> length (vadd x y) = length x.
Proof. intros H. unfold vadd. rewrite length_zip_with. lia. Qed.

Lemma vscale_length (x : vec) (c : R) : length (vscale x c) = length x.
Proof. unfold vscale. apply length_map. Qed.

Lemma rows_A : Forall (fun row => length row = 4%nat) A.
Proof. unfold A. repeat constructor. Qed.

Lemma rows_B : Forall (fun row => length row = 1%nat) B.
Proof. unfold B. repeat constructor. Qed.

Lemma rows_mscale (M : mat) (c : R) (n : nat) :
  Forall (fun row => length row = n) M ->
  Forall (fun row => length row = n) (mscale M c).
Proof.
  unfold mscale. intros H. apply Forall_map.
  eapply Forall_impl; [exact H|]. intros row Hr. simpl.
  rewrite vscale_length. exact Hr.
Qed.

Lemma rows_Ad : Forall (fun row => length row = 4%nat) Ad.
Proof. unfold Ad, A, dim_x. simpl. repeat constructor. Qed.

Lemma rows_Bd : Forall (fun row => length row = 1%nat) Bd.
Proof. unfold Bd. apply rows_mscale, rows_B. Qed.

Lemma rows_at (M : mat) (n : nat) (x : vec) :
  Forall (fun row => length row = n) M -> length x = n ->
  Forall (fun row => length row = length x) M.
Proof. intros H Hx. rewrite Hx. exact H. Qed.

(** ** The continuous model and one Euler step *)

Lemma xdot_ok (x u : vec) :
  length x = 4%nat -> length u = 1%nat ->
  xdot x u = Ok (vadd (mat_vec A x) (mat_vec B u)).
Proof.
  intros Hx Hu. unfold xdot.
  rewrite (np_dot_ok A x) by (eapply rows_at; [apply rows_A|exact Hx]).
  rewrite (np_dot_ok B u) by (eapply rows_at; [apply rows_B|exact Hu]).
  rewrite !bind_Ok. apply np_add_ok. rewrite !mat_vec_length. reflexivity.
Qed.

Lemma euler_length (x u : vec) (h : R) :
  length x = 4%nat -> length (euler x u h) = 4%nat.
Proof.
  intros Hx. unfold euler.
  rewrite vadd_length; [exact Hx|].
  rewrite vscale_length, vadd_length; rewrite !mat_vec_length; [|reflexivity].
  exact Hx.
Qed.

Lemma euler_step_ok (x u : vec) (h : R) :
  length x = 4%nat -> length u = 1%nat ->
  euler_step x u h = Ok (euler x u h).
Proof.
  intros Hx Hu. unfold euler_step. rewrite (xdot_ok x u Hx Hu), bind_Ok.
  apply np_add_ok.
  rewrite vscale_length, vadd_length; rewrite !mat_vec_length; [|reflexivity].
  exact Hx.
Qed.

(** ** Discretisation *)

(** C3: the discrete matrices are the first-order Euler discretisation of
    the continuous ones for the fixed step [dt = 1e-3]: [Ad] is the 4x4
    identity plus [A] times [dt] and [Bd] is [B] times [dt], entry by
    entry, with the shapes of [A] and [B]. *)
Theorem Ad_Bd_euler_discretisation :
  dt = 1 / 1000 /\
  length Ad = 4%nat /\ Forall (fun row => length row = 4%nat) Ad /\
  length Bd = 4%nat /\ Forall (fun row => length row = 1%nat) Bd /\
  Forall (fun i => Forall (fun j =>
            entry Ad i j = delta i j + entry A i j * dt) (seq 0 4)) (seq 0 4) /\
  Forall (fun i => entry Bd i 0 = entry B i 0 * dt) (seq 0 4).
Proof.
  split; [reflexivity|].
  split; [reflexivity|].
  split; [apply rows_Ad|].
  split; [reflexivity|].
  split; [apply rows_Bd|].
  split.
  - repeat (apply Forall_cons; split); try apply Forall_nil; reflexivity.
  - repeat (apply Forall_cons; split); try apply Forall_nil; reflexivity.
Qed.

(** The discretised matrices written out. *)
Lemma Ad_value :
  Ad = [ [1 + 0 * dt; 0 + 1 * dt; 0 + 0 * dt; 0 + 0 * dt];
         [0 + 0 * dt; 1 + 0 * dt; 0 + - Plant.m * Plant.g / Plant.M * dt; 0 + 0 * dt];
         [0 + 0 * dt; 0 + 0 * dt; 1 + 0 * dt; 0 + 1 * dt];
         [0 + 0 * dt; 0 + 0 * dt;
          0 + (Plant.m + Plant.M) * Plant.g / Plant.l / Plant.M * dt; 1 + 0 * dt] ].
Proof. reflexivity. Qed.

Lemma plant_step_value (x u : vec) :
  length x = 4%nat -> length u = 1%nat ->
  plant_step x u = Ok (discrete_step x u).
Proof.
  intros Hx Hu. unfold plant_step.
  rewrite (np_dot_ok Ad x) by (eapply rows_at; [apply rows_Ad|exact Hx]).
  rewrite (np_dot_ok Bd u) by (eapply rows_at; [apply rows_Bd|exact Hu]).
  rewrite !bind_Ok.
  apply np_add_ok. rewrite !mat_vec_length. reflexivity.
Qed.

(** The discrete successor is the Euler update with step [dt]. *)
Lemma discrete_step_euler (x u : vec) :
  length x = 4%nat -> length u = 1%nat ->
  discrete_step x u = euler x u dt.
Proof.
  intros Hx Hu.
  destruct x as [|a [|b [|c [|d [|? ?]]]]]; try discriminate Hx.
  destruct u as [|e [|? ?]]; try discriminate Hu.
  unfold discrete_step, euler, Ad, Bd, A, B, dim_x, dt,
    Plant.m, Plant.g, Plant.M, Plant.l.
  cbn -[Rplus Rmult Rdiv Ropp].
  repeat (f_equal; try lra).
Qed.

Lemma plant_step_ok (x u : vec) :
  length x = 4%nat -> length u = 1%nat ->
  plant_step x u = Ok (euler x u dt).
Proof.
  intros Hx Hu. rewrite (plant_step_value x u Hx Hu).
  rewrite (discrete_step_euler x u Hx Hu). reflexivity.
Qed.

(** C5 (as amended): on a state of dimension 4 and a control of dimension
    1, the discrete plant update [Ad.dot(x) + Bd.dot(u)] of the MPC loops
    and the Euler step [x + xdot(x,u)*dt] of the simulators both return a
    vector of four entries, and in exact real arithmetic the two vectors
    are equal.  The equality is one of exact arithmetic only: it uses
    distributivity, which rounding breaks. *)
Theorem plant_step_is_euler_step (x u : vec) :
  length x = 4%nat -> length u = 1%nat ->
  plant_step x u = Ok (discrete_step x u) /\
  discrete_step x u = euler x u dt /\
  euler_step x u dt = Ok (euler x u dt) /\
  length (euler x u dt) = 4%nat.
Proof.
  intros Hx Hu. split; [|split; [|split]].
  - apply plant_step_value; assumption.
  - apply discrete_step_euler; assumption.
  - apply euler_step_ok; assumption.
  - apply euler_length; assumption.
Qed.

Lemma plant_step_is_euler_step_witness :
  plant_step [1; 0; - (1 / 1000); 0] [2] = Ok (discrete_step [1; 0; - (1 / 1000); 0] [2]) /\
  discrete_step [1; 0; - (1 / 1000); 0] [2] = euler [1; 0; - (1 / 1000); 0] [2] dt /\
  euler_step [1; 0; - (1 / 1000); 0] [2] dt = Ok (euler [1; 0; - (1 / 1000); 0] [2] dt) /\
  length (euler [1; 0; - (1 / 1000); 0] [2] dt) = 4%nat.
Proof. apply (plant_step_is_euler_step [1; 0; - (1 / 1000); 0] [2]); reflexivity. Defined.

(** C5, as stated, fails for the float64 code: at the start state of the
    MPC cells and the control 2, the plant update and the Euler step return
    vectors whose second entries differ, by less than 1e-18. *)
Lemma plant_step_is_not_euler_step_in_float64 :
  F64.plant_step F64.x0_mpc [2%float]
    = Ok [1; 0.00200098; -0.001; -0.00201078]%float /\
  F64.euler_step F64.x0_mpc [2%float] F64.dt
    = Ok [1; 0.0020009800000000003; -0.001; -0.00201078]%float /\
  PrimFloat.eqb 0.00200098 0.0020009800000000003 = false /\
  PrimFloat.ltb (PrimFloat.abs (0.0020009800000000003 - 0.00200098)) 1e-18 = true.
Proof. repeat split; vm_compute; reflexivity. Qed.

(** ** Stage cost *)

Lemma stage_cost_value (a b c d e : R) :
  stage_cost [a; b; c; d] [e] =
  Ok (dotp [a; b; c; d] (mat_vec Q [a; b; c; d]) + dotp [e] (mat_vec Rmat [e])).
Proof. reflexivity. Qed.

Lemma stage_cost_expand (a b c d e : R) :
  dotp [a; b; c; d] (mat_vec Q [a; b; c; d]) + dotp [e] (mat_vec Rmat [e]) =
  a * a + 100 * (b * b) + 1 / 10 * (c * c) + d * d + 1 / 1000 * (e * e).
Proof.
  unfold Q, Rmat. cbn -[Rplus Rmult Rdiv Ropp]. lra.
Qed.




(** ** Open-loop integration *)

Lemma get_col_ok (X : list vec) (t : nat) (c : vec) :
  X !! t = Some c -> get_col X t = Ok c.
Proof. intros H. unfold get_col. rewrite H. reflexivity. Qed.

Lemma set_col_ok (nrows : nat) (X : list vec) (t : nat) (v : vec) :
  (t < length X)%nat -> length v = nrows ->
  set_col nrows X t v = Ok (<[t := v]> X).
Proof.
  intros Ht Hv. unfold set_col.
  replace (Nat.ltb t (length X)) with true by (symmetry; apply Nat.ltb_lt; exact Ht).
  rewrite Hv, Nat.eqb_refl. reflexivity.
Qed.

(** One iteration writes column [t+1] of [X] and nothing else. *)
Lemma ol_body_ok (h : R) (t : nat) (f : ol_frame) (x u : vec) :
  length (fr_x0 f) = 4%nat ->
  fr_X f !! t = Some x -> length x = 4%nat ->
  fr_U f !! t = Some u -> length u = 1%nat ->
  (t + 1 < length (fr_X f))%nat ->
  ol_body h t f =
  Ok (OlFrame (fr_x0 f) (fr_U f) (<[(t + 1)%nat := euler x u h]> (fr_X f))).
Proof.
  intros H0 HX Hx HU Hu Ht. unfold ol_body.
  rewrite (get_col_ok _ _ _ HX), bind_Ok.
  rewrite (get_col_ok _ _ _ HU), bind_Ok.
  rewrite (euler_step_ok x u h Hx Hu), bind_Ok.
  rewrite set_col_ok; [reflexivity|exact Ht|].
  rewrite H0. apply euler_length. exact Hx.
Qed.

(** Invariant of the loop, from iteration [start] on. *)
Lemma ol_loop_inv (h : R) (n : nat) :
  forall (start : nat) (f : ol_frame) (xs : vec),
    length (fr_x0 f) = 4%nat ->
    Forall (fun u => length u = 1%nat) (fr_U f) ->
    (start + n <= length (fr_U f))%nat ->
    length (fr_X f) = (start + n + 1)%nat ->
    fr_X f !! start = Some xs -> length xs = 4%nat ->
    exists f',
      for_range (ol_body h) start n f = Ok f' /\
      fr_x0 f' = fr_x0 f /\ fr_U f' = fr_U f /\
      length (fr_X f') = length (fr_X f) /\
      (forall t, (t <= start)%nat -> fr_X f' !! t = fr_X f !! t) /\
      (forall t, (start <= t < start + n)%nat ->
         exists xt ut, fr_X f' !! t = Some xt /\ fr_U f !! t = Some ut /\
                       fr_X f' !! (t + 1)%nat = Some (euler xt ut h)).
Proof.
  induction n as [|n IH]; intros start f xs H0 HU Hn HX Hxs Hlen.
  - exists f. simpl. repeat split; try reflexivity. intros t Ht. lia.
  - destruct (lookup_lt_is_Some_2 (fr_U f) start) as [u Hu]; [lia|].
    assert (length u = 1%nat) as Hul.
    { rewrite Forall_forall in HU. apply HU.
      eapply list_elem_of_lookup_2. exact Hu. }
    cbn [for_range].
    rewrite (ol_body_ok h start f xs u H0 Hxs Hlen Hu Hul) by lia.
    rewrite bind_Ok.
    set (f1 := OlFrame (fr_x0 f) (fr_U f)
                       (<[(start + 1)%nat := euler xs u h]> (fr_X f))).
    assert (fr_X f1 !! S start = Some (euler xs u h)) as Hnext.
    { unfold f1. cbn [fr_X]. replace (S start) with (start + 1)%nat by lia.
      apply list_lookup_insert_eq. lia. }
    destruct (IH (S start) f1 (euler xs u h)) as (f' & Hrun & E0 & EU & EL & Hlow & Hhigh).
    + exact H0.
    + exact HU.
    + unfold f1. cbn [fr_U]. lia.
    + unfold f1. cbn [fr_X]. rewrite length_insert. lia.
    + exact Hnext.
    + apply euler_length. exact Hlen.
    + exists f'. split; [exact Hrun|].
      split; [exact E0|]. split; [exact EU|].
      split; [rewrite EL; unfold f1; cbn [fr_X]; apply length_insert|].
      assert (forall t, (t <= start)%nat -> fr_X f' !! t = fr_X f !! t) as Hkeep.
      { intros t Ht. rewrite Hlow by lia. unfold f1. cbn [fr_X].
        apply list_lookup_insert_ne. lia. }
      split; [exact Hkeep|].
      intros t Ht. destruct (Nat.eq_dec t start) as [->|Hne].
      * exists xs, u. split; [rewrite Hkeep by lia; exact Hxs|].
        split; [exact Hu|].
        replace (start + 1)%nat with (S start) by lia.
        rewrite Hlow by lia. exact Hnext.
      * destruct (Hhigh t) as (xt & ut & H1 & H2 & H3); [lia|].
        exists xt, ut. repeat split; assumption.
Qed.

(** C7: for an initial state of the model's dimension 4 and a control
    sequence with one row and at least [steps] columns, integrateOpenLoop
    returns a trajectory with [steps+1] columns whose first column is [x0]
    and whose column [t+1] is the Euler update of column [t] under
    [U[:, t]]; the caller's [x0] and [U] hold their initial contents when
    it returns. *)
Theorem integrateOpenLoop_euler_trajectory
    (junk : nat -> vec) (x0 : vec) (U : list vec) (steps : nat) (h : R) :
  length x0 = 4%nat ->
  Forall (fun u => length u = 1%nat) U ->
  (steps <= length U)%nat ->
  exists f,
    integrateOpenLoop_frame junk x0 U steps h = Ok f /\
    integrateOpenLoop junk x0 U steps h = Ok (fr_X f) /\
    length (fr_X f) = (steps + 1)%nat /\
    fr_X f !! 0%nat = Some x0 /\
    (forall t, (t < steps)%nat ->
       exists xt ut, fr_X f !! t = Some xt /\ U !! t = Some ut /\
                     fr_X f !! (t + 1)%nat = Some (euler xt ut h)) /\
    fr_x0 f = x0 /\ fr_U f = U.
Proof.
  intros H0 HU Hsteps.
  assert (length (np_empty junk (steps + 1)) = (steps + 1)%nat) as Hlen.
  { unfold np_empty. rewrite length_map, length_seq. reflexivity. }
  set (X0 := <[0%nat := x0]> (np_empty junk (steps + 1))).
  assert (integrateOpenLoop_frame junk x0 U steps h
          = for_range (ol_body h) 0 steps (OlFrame x0 U X0)) as Hstart.
  { unfold integrateOpenLoop_frame.
    rewrite set_col_ok; [reflexivity| |reflexivity]. rewrite Hlen. lia. }
  destruct (ol_loop_inv h steps 0%nat (OlFrame x0 U X0) x0)
    as (f & Hrun & E0 & EU & EL & Hlow & Hhigh); cbn [fr_x0 fr_U fr_X] in *.
  - exact H0.
  - exact HU.
  - lia.
  - unfold X0. rewrite length_insert, Hlen. lia.
  - unfold X0. apply list_lookup_insert_eq. rewrite Hlen. lia.
  - exact H0.
  - exists f. split; [rewrite Hstart; exact Hrun|].
    split; [unfold integrateOpenLoop; rewrite Hstart, Hrun; reflexivity|].
    split; [rewrite EL; unfold X0; rewrite length_insert; exact Hlen|].
    split; [rewrite Hlow by lia; unfold X0; apply list_lookup_insert_eq;
            rewrite Hlen; lia|].
    split; [|split; assumption].
    intros t Ht. apply Hhigh. lia.
Qed.

Lemma integrateOpenLoop_euler_trajectory_witness :
  exists f,
    integrateOpenLoop_frame (fun _ => [7; 7; 7; 7]) [0; 0; 1 / 1000; 0]
                            [[0]; [0]; [0]] 2 dt = Ok f /\
    integrateOpenLoop (fun _ => [7; 7; 7; 7]) [0; 0; 1 / 1000; 0]
                      [[0]; [0]; [0]] 2 dt = Ok (fr_X f) /\
    length (fr_X f) = (2 + 1)%nat /\
    fr_X f !! 0%nat = Some [0; 0; 1 / 1000; 0] /\
    (forall t, (t < 2)%nat ->
       exists xt ut, fr_X f !! t = Some xt /\ [[0]; [0]; [0]] !! t = Some ut /\
                     fr_X f !! (t + 1)%nat = Some (euler xt ut dt)) /\
    fr_x0 f = [0; 0; 1 / 1000; 0] /\ fr_U f = [[0]; [0]; [0]].
Proof.
  apply (integrateOpenLoop_euler_trajectory
           (fun _ => [7; 7; 7; 7]) [0; 0; 1 / 1000; 0] [[0]; [0]; [0]] 2 dt).
  - reflexivity.
  - repeat constructor.
  - simpl. lia.
Defined.

(** The dimension hypothesis is needed: on a state of three entries the
    first product with the 4x4 matrix [A] raises. *)
Lemma integrateOpenLoop_wrong_dimension :
  integrateOpenLoop (fun _ => [0; 0; 0]) [1; 2; 3] [[0]] 1 dt = Raise ValueError.
Proof. reflexivity. Qed.

(** ** The finite-horizon problem *)

Lemma build_loop_S (ic : nat -> list constr) (N : nat) :
  build_loop ic (S N) = build_body ic (build_loop ic N) N.
Proof.
  unfold build_loop. rewrite seq_S, foldl_app. reflexivity.
Qed.

(** The constraint list, in the order the cell appends it. *)
Lemma build_loop_constraints (ic : nat -> list constr) (N : nat) :
  snd (build_loop ic N) =
  CEq (ECol VarX 0) EParam :: flat_map (fun k => dynamics k :: ic k) (seq 0 N).
Proof.
  induction N as [|N IH]; [reflexivity|].
  rewrite build_loop_S. cbn [build_body snd]. rewrite IH.
  rewrite seq_S, flat_map_app. cbn [flat_map Nat.add].
  rewrite app_nil_r, <- !app_assoc. reflexivity.
Qed.

Lemma build_loop_objective (ic : nat -> list constr) (N : nat)
    (xi : vec) (v : valuation) :
  eval_s xi v (fst (build_loop ic N)) =
  sum_upto N (fun k => quad_form (column v VarX k) Qd
                       + quad_form (column v VarU k) Rd).
Proof.
  induction N as [|N IH]; [reflexivity|].
  rewrite build_loop_S. cbn [build_body fst eval_s sum_upto].
  rewrite IH. reflexivity.
Qed.

Lemma holds_build_loop (ic : nat -> list constr) (N : nat)
    (xi : vec) (v : valuation) :
  Forall (holds xi v) (snd (build_loop ic N)) <-> spec_constraints ic N xi v.
Proof.
  rewrite build_loop_constraints. unfold spec_constraints.
  rewrite Forall_cons, Forall_flat_map. cbn [holds eval].
  split.
  - intros [H0 Hall]. split; [exact H0|].
    rewrite Forall_forall in Hall.
    split; intros k Hk.
    + assert (k ∈ seq 0 N) as Hin by (apply elem_of_seq; lia).
      specialize (Hall k Hin). apply Forall_cons in Hall as [Hd _]. exact Hd.
    + assert (k ∈ seq 0 N) as Hin by (apply elem_of_seq; lia).
      specialize (Hall k Hin). apply Forall_cons in Hall as [_ Hi]. exact Hi.
  - intros (H0 & Hdyn & Hic). split; [exact H0|].
    apply Forall_forall. intros k Hin. apply elem_of_seq in Hin.
    apply Forall_cons. split; [apply Hdyn; lia|apply Hic; lia].
Qed.

(** C1: for every horizon [N] and parameter value [x_init], the problem
    the input-constraint builder makes minimises the sum over k < N of the stage terms with
    [Qd = Q dt], [Rd = R dt] plus the terminal term [x_N^T P x_N], over
    variables [X] (4 by N+1) and [U] (1 by N), and its constraints hold
    exactly when [X[:,0] = x_init], the dynamics equalities hold for every
    k < N, and the constraints appended by the statement left open hold. *)
Theorem mpc_constrained_is_finite_horizon_qp
    (P : mat) (ic : nat -> list constr) (N : nat) (xi : vec) (v : valuation) :
  (exists s, p_objective (mpc_constrained P ic N) = Minimize s /\
             eval_s xi v s = spec_cost P N v) /\
  (feasible xi v (mpc_constrained P ic N) <-> spec_constraints ic N xi v) /\
  p_constraints (mpc_constrained P ic N) =
    CEq (ECol VarX 0) EParam :: flat_map (fun k => dynamics k :: ic k) (seq 0 N) /\
  p_X_shape (mpc_constrained P ic N) = (4, N + 1)%nat /\
  p_U_shape (mpc_constrained P ic N) = (1, N)%nat.
Proof.
  split; [|split; [|split; [|split]]].
  - eexists. split; [reflexivity|].
    cbn [eval_s eval]. rewrite build_loop_objective. reflexivity.
  - unfold feasible. cbn [mpc_constrained p_constraints].
    apply holds_build_loop.
  - cbn [mpc_constrained p_constraints]. apply build_loop_constraints.
  - reflexivity.
  - reflexivity.
Qed.

(** With the statement left open in the terminal-cost builder (lines
    564-575) filled in as [quad_form(X[:,N], P)], that builder makes the
    same problem as the input-constraint builder with nothing appended. *)
Lemma mpc_terminal_with_P (P : mat) (N : nat) :
  mpc_terminal (SQuad (ECol VarX N) P) N = mpc_constrained P (fun _ => []) N.
Proof. reflexivity. Qed.

(** ** One iteration of an MPC loop *)


Lemma set_item_inv {T : Type} (a a' : list T) (t : nat) (v : T) :
  set_item a t v = Ok a' -> (t < length a)%nat /\ a' = <[t := v]> a.
Proof.
  unfold set_item. destruct (Nat.ltb t (length a)) eqn:E; [|discriminate].
  intros H. inversion H. apply Nat.ltb_lt in E. split; [exact E|reflexivity].
Qed.

Lemma set_item_ok {T : Type} (a : list T) (t : nat) (v : T) :
  (t < length a)%nat -> set_item a t v = Ok (<[t := v]> a).
Proof.
  intros H. unfold set_item.
  replace (Nat.ltb t (length a)) with true by (symmetry; apply Nat.ltb_lt; exact H).
  reflexivity.
Qed.

(** Writing a column of four entries succeeds only into an array of four
    rows, and stores the column as it is. *)
Lemma set_col_inv4 (nrows : nat) (X X' : list vec) (t : nat) (v : vec) :
  length v = 4%nat -> set_col nrows X t v = Ok X' ->
  (t < length X)%nat /\ nrows = 4%nat /\ X' = <[t := v]> X.
Proof.
  intros Hv. unfold set_col.
  destruct (Nat.ltb t (length X)) eqn:E; cbn [negb]; [|discriminate].
  apply Nat.ltb_lt in E. rewrite Hv.
  destruct (Nat.eqb 4 nrows) eqn:En.
  - apply Nat.eqb_eq in En. intros H. inversion H. auto.
  - destruct v as [|a [|b v]]; discriminate.
Qed.

Lemma set_x_init_inv {Mem : Type} (st st1 : nb_state Mem) :
  set_x_init st = Ok st1 ->
  length (st_x st) = dim_x /\
  st1 = MkState (st_mpc st) (Some (st_x st)) (st_U st) (st_solver st)
                (st_x st) (st_Xtraj st) (st_Utraj st) (st_Jtraj st).
Proof.
  unfold set_x_init. destruct (Nat.eqb (length (st_x st)) dim_x) eqn:E; [|discriminate].
  apply Nat.eqb_eq in E. intros H. inversion H. auto.
Qed.

Section BodyFacts.
Context {Mem : Type}.
Variable solve : solver Mem.

(** What a successful iteration of the input-constrained loop did. *)
Lemma mpc_body_constrained_inv (nrows t : nat) (st st' : nb_state Mem) :
  mpc_body_constrained solve nrows t st = Ok st' ->
  mpc_step solve true t st st'.
Proof.
  intros H. unfold mpc_step. unfold mpc_body_constrained in H.
  inv_bind H. apply set_x_init_inv in E as [Hx ->].
  inv_bind H. unfold call_solve in E. cbn [st_x_init st_solver st_mpc] in E.
  destruct (solve (st_solver st) (st_mpc st) (st_x st) true) as [sol mem|] eqn:Es;
    [|discriminate E].
  inversion E; subst v; clear E. cbn [fst snd st_Jtraj st_Xtraj st_x st_Utraj] in H.
  inv_bind H. apply set_item_inv in E as [HJ ->].
  inv_bind H. apply (set_col_inv4 _ _ _ _ _ Hx) in E as (HX & _ & ->).
  inv_bind H. unfold first_move in E. cbn [st_U] in E.
  destruct (sol_U sol) as [Uv|] eqn:EU.
  - destruct (Uv !! 0%nat) as [u0|] eqn:E0; [|discriminate E].
    inversion E; subst v; clear E.
    inv_bind H. destruct u0 as [|a [|b u0]]; try discriminate E.
    inversion E; subst v; clear E.
    inv_bind H. apply set_item_inv in E as [HU ->].
    rewrite bind_Ok in H. cbn [apply_move] in H.
    inv_bind H. inversion H; subst st'; clear H. cbn [st_x].
    exists sol, mem, Uv, a. cbn [st_mpc st_x_init st_U st_solver].
    repeat split; try assumption.
  - inversion E; subst v; clear E.
    cbn [scalar_of] in H. rewrite bind_Ok in H. inv_bind H.
    rewrite bind_Ok in H. cbn [apply_move] in H.
    rewrite bind_Raise in H. discriminate H.
Qed.

(** What a successful iteration of the terminal-cost loop did. *)
Lemma mpc_body_terminal_inv (nrows t : nat) (st st' : nb_state Mem) :
  mpc_body_terminal solve nrows t st = Ok st' ->
  mpc_step solve false t st st'.
Proof.
  intros H. unfold mpc_step. unfold mpc_body_terminal in H.
  inv_bind H. rename E into EX.
  inv_bind H. apply set_x_init_inv in E as [Hx ->].
  apply (set_col_inv4 _ _ _ _ _ Hx) in EX as (HX & _ & ->).
  inv_bind H. unfold call_solve in E. cbn [st_x_init st_solver st_mpc] in E.
  destruct (solve (st_solver st) (st_mpc st) (st_x st) false) as [sol mem|] eqn:Es;
    [|discriminate E].
  inversion E; subst v; clear E. cbn [fst snd st_Jtraj st_Xtraj st_x st_Utraj] in H.
  inv_bind H. apply set_item_inv in E as [HJ ->].
  inv_bind H. unfold first_move in E. cbn [st_U] in E.
  destruct (sol_U sol) as [Uv|] eqn:EU.
  - destruct (Uv !! 0%nat) as [u0|] eqn:E0; [|discriminate E].
    inversion E; subst v; clear E. cbn [apply_move] in H.
    inv_bind H. rename E into Estep. rewrite bind_Ok in H.
    inv_bind H. destruct u0 as [|a [|b u0]]; try discriminate E.
    inversion E; subst v0; clear E.
    inv_bind H. apply set_item_inv in E as [HU ->].
    inversion H; subst st'; clear H. cbn [st_x].
    exists sol, mem, Uv, a. cbn [st_mpc st_x_init st_U st_solver].
    repeat split; try assumption.
  - inversion E; subst v; clear E.
    cbn [apply_move] in H. rewrite bind_Raise in H. discriminate H.
Qed.
End BodyFacts.

(** ** A run of an MPC loop *)

Section Runs.
Context {Mem : Type}.
Variable solve : solver Mem.
Variable w : bool.
Variable body : nat -> nb_state Mem -> result (nb_state Mem).
Hypothesis body_step :
  forall t st st', body t st = Ok st' -> mpc_step solve w t st st'.

(** Invariant of [for t in range(...)] from iteration [start] on, for
    [n] more iterations. *)
Lemma mpc_run_inv (n : nat) :
  forall (start : nat) (st st' : nb_state Mem),
    for_range body start n st = Ok st' ->
    st_mpc st' = st_mpc st /\
    length (st_Xtraj st') = length (st_Xtraj st) /\
    length (st_Utraj st') = length (st_Utraj st) /\
    length (st_Jtraj st') = length (st_Jtraj st) /\
    ((0 < n)%nat -> (start + n <= length (st_Xtraj st))%nat) /\
    (forall t, (t < start)%nat ->
       st_Xtraj st' !! t = st_Xtraj st !! t /\
       st_Utraj st' !! t = st_Utraj st !! t /\
       st_Jtraj st' !! t = st_Jtraj st !! t) /\
    (n = 0%nat -> st' = st) /\
    ((0 < n)%nat -> st_Xtraj st' !! start = Some (st_x st)) /\
    (forall t, (start <= t < start + n)%nat ->
       exists xt a J,
         st_Xtraj st' !! t = Some xt /\
         st_Utraj st' !! t = Some (Finite a) /\
         st_Jtraj st' !! t = Some J /\
         first_move_of solve w (st_mpc st) xt a J /\
         plant_step xt [a] = Ok (discrete_step xt [a]) /\
         state_after st' (start + n) t = Some (discrete_step xt [a])).
Proof.
  induction n as [|n IH]; intros start st st' Hrun.
  - cbn [for_range] in Hrun. inversion Hrun; subst st'.
    repeat split; try reflexivity; try lia; intros; lia.
  - cbn [for_range] in Hrun. inv_bind Hrun. rename v into st1.
    apply body_step in E.
    destruct E as (sol & mem & Uv & a & Hx & Hs & HU & H0 & LX & LU & LJ & Hp & Est1).
    destruct (IH (S start) st1 st' Hrun)
      as (Em & EX & EU & EJ & Hle & Hlow & Hz & Hfirst & Hhigh).
    assert (st_mpc st1 = st_mpc st) as Em1 by (rewrite Est1; reflexivity).
    assert (st_Xtraj st1 = <[start := st_x st]> (st_Xtraj st)) as EX1
      by (rewrite Est1; reflexivity).
    assert (st_Utraj st1 = <[start := Finite a]> (st_Utraj st)) as EU1
      by (rewrite Est1; reflexivity).
    assert (st_Jtraj st1 = <[start := sol_value sol]> (st_Jtraj st)) as EJ1
      by (rewrite Est1; reflexivity).
    split; [congruence|].
    split; [rewrite EX, EX1; apply length_insert|].
    split; [rewrite EU, EU1; apply length_insert|].
    split; [rewrite EJ, EJ1; apply length_insert|].
    split; [intros _; rewrite EX1, length_insert in Hle; lia|].
    split.
    { intros t Ht. destruct (Hlow t) as (K1 & K2 & K3); [lia|].
      rewrite K1, K2, K3, EX1, EU1, EJ1.
      rewrite !list_lookup_insert_ne by lia. auto. }
    split; [intros Hn; discriminate Hn|].
    assert (st_Xtraj st' !! start = Some (st_x st)) as Hstart.
    { destruct (Hlow start) as (K1 & _ & _); [lia|].
      rewrite K1, EX1. apply list_lookup_insert_eq. exact LX. }
    split; [intros _; exact Hstart|].
    intros t Ht. destruct (Nat.eq_dec t start) as [->|Hne].
    + exists (st_x st), a, (sol_value sol).
      assert (st_x st1 = discrete_step (st_x st) [a]) as Enext.
      { rewrite Est1 in *. cbn [st_x] in *.
        rewrite (plant_step_value _ [a] Hx eq_refl) in Hp.
        inversion Hp. reflexivity. }
      destruct (Hlow start) as (_ & K2 & K3); [lia|].
      split; [exact Hstart|].
      split; [rewrite K2, EU1; apply list_lookup_insert_eq; exact LU|].
      split; [rewrite K3, EJ1; apply list_lookup_insert_eq; exact LJ|].
      split; [exists (st_solver st), sol, mem, Uv; auto|].
      split; [apply plant_step_value; [exact Hx|reflexivity]|].
      rewrite <- Enext.
      unfold state_after. destruct n as [|n].
      * rewrite (Hz eq_refl).
        replace (Nat.ltb (start + 1) (start + 1)) with false
          by (symmetry; apply Nat.ltb_ge; lia).
        reflexivity.
      * replace (Nat.ltb (start + 1) (start + S (S n))) with true
          by (symmetry; apply Nat.ltb_lt; lia).
        replace (start + 1)%nat with (S start) by lia.
        apply Hfirst. lia.
    + destruct (Hhigh t) as (xt & a' & J & K1 & K2 & K3 & K4 & K5 & K6); [lia|].
      exists xt, a', J. rewrite <- Em1.
      replace (start + S n)%nat with (S start + n)%nat by lia.
      repeat split; assumption.
Qed.
End Runs.

(** ** Comparing two runs *)

Lemma for_range_sim {T1 T2 : Type} (Rel : T1 -> T2 -> Prop)
    (body1 : nat -> T1 -> result T1) (body2 : nat -> T2 -> result T2) :
  (forall t s1 s2, Rel s1 s2 -> result_rel Rel (body1 t s1) (body2 t s2)) ->
  forall n start s1 s2,
    Rel s1 s2 ->
    result_rel Rel (for_range body1 start n s1) (for_range body2 start n s2).
Proof.
  intros Hbody. induction n as [|n IH]; intros start s1 s2 Hrel.
  - exact Hrel.
  - cbn [for_range]. specialize (Hbody start s1 s2 Hrel).
    destruct (body1 start s1) as [v1|e1], (body2 start s2) as [v2|e2];
      cbn [result_rel] in Hbody; try contradiction.
    + rewrite !bind_Ok. apply IH. exact Hbody.
    + rewrite !bind_Raise. exact Hbody.
Qed.

Lemma result_rel_map {T1 T2 T3 : Type} (f1 : T1 -> T3) (f2 : T2 -> T3)
    (r1 : result T1) (r2 : result T2) :
  result_rel (fun a b => f1 a = f2 b) r1 r2 ->
  map_result f1 r1 = map_result f2 r2.
Proof.
  destruct r1, r2; cbn [result_rel map_result]; intros H;
    try contradiction; congruence.
Qed.

Section BodyCompare.
Context {Mem : Type}.
Variable solve : solver Mem.

(** The status the solver reports is not read by an iteration. *)
Lemma mpc_body_constrained_restatus (f : status -> status)
    (nrows t : nat) (st : nb_state Mem) :
  mpc_body_constrained (restatus f solve) nrows t st =
  mpc_body_constrained solve nrows t st.
Proof.
  unfold mpc_body_constrained.
  destruct (set_x_init st) as [st1|e]; [rewrite !bind_Ok|reflexivity].
  unfold call_solve, restatus.
  destruct (st_x_init st1) as [xi|]; [|reflexivity].
  destruct (solve (st_solver st1) (st_mpc st1) xi true); reflexivity.
Qed.

Lemma mpc_body_terminal_restatus (f : status -> status)
    (nrows t : nat) (st : nb_state Mem) :
  mpc_body_terminal (restatus f solve) nrows t st =
  mpc_body_terminal solve nrows t st.
Proof.
  unfold mpc_body_terminal.
  destruct (set_col nrows (st_Xtraj st) t (st_x st)) as [X'|e];
    [rewrite !bind_Ok|reflexivity].
  destruct (set_x_init st) as [st1|e]; [rewrite !bind_Ok|reflexivity].
  unfold call_solve, restatus.
  destruct (st_x_init st1) as [xi|]; [|reflexivity].
  destruct (solve (st_solver st1) (st_mpc st1) xi false); reflexivity.
Qed.

(** Of the value the solver leaves in [U], an iteration reads the first
    column only; and it does not read the value [U] had before. *)
Lemma mpc_body_constrained_tamper (g : list vec -> list vec)
    (nrows t : nat) (st1 st2 : nb_state Mem) :
  (forall Uv, g Uv !! 0%nat = Uv !! 0%nat) ->
  forget_U st1 = forget_U st2 ->
  result_rel (fun a b => forget_U a = forget_U b)
             (mpc_body_constrained (tamper g solve) nrows t st1)
             (mpc_body_constrained solve nrows t st2).
Proof.
  intros Hg Hst. destruct st1 as [p1 xi1 U1 m1 x1 X1 Ut1 J1].
  destruct st2 as [p2 xi2 U2 m2 x2 X2 Ut2 J2].
  unfold forget_U in Hst. cbn in Hst. inversion Hst; subst; clear Hst.
  unfold mpc_body_constrained, set_x_init. cbn [st_x].
  destruct (Nat.eqb (length x2) dim_x); [rewrite !bind_Ok|reflexivity].
  unfold call_solve, tamper. cbn [st_x_init st_solver st_mpc].
  destruct (solve m2 p2 x2 true) as [sol mem|]; [rewrite !bind_Ok|reflexivity].
  cbn [fst snd st_Jtraj st_Xtraj st_x st_Utraj st_mpc st_x_init st_U st_solver
       sol_value sol_U].
  destruct (set_item J2 t (sol_value sol)) as [J'|e]; [rewrite !bind_Ok|reflexivity].
  destruct (set_col nrows X2 t x2) as [X'|e]; [rewrite !bind_Ok|reflexivity].
  unfold first_move. cbn [st_U].
  destruct (sol_U sol) as [Uv|]; cbn [fmap option_fmap option_map].
  - rewrite Hg. destruct (Uv !! 0%nat) as [u0|]; [rewrite !bind_Ok|reflexivity].
    destruct (scalar_of (Some u0)) as [uv|e]; [rewrite !bind_Ok|reflexivity].
    destruct (set_item Ut2 t uv) as [Ut'|e]; [rewrite !bind_Ok|reflexivity].
    destruct (apply_move x2 (Some u0)) as [x'|e]; [rewrite !bind_Ok|reflexivity].
    reflexivity.
  - rewrite !bind_Ok.
    destruct (scalar_of None) as [uv|e]; [rewrite !bind_Ok|reflexivity].
    destruct (set_item Ut2 t uv) as [Ut'|e]; [rewrite !bind_Ok|reflexivity].
    reflexivity.
Qed.

Lemma mpc_body_terminal_tamper (g : list vec -> list vec)
    (nrows t : nat) (st1 st2 : nb_state Mem) :
  (forall Uv, g Uv !! 0%nat = Uv !! 0%nat) ->
  forget_U st1 = forget_U st2 ->
  result_rel (fun a b => forget_U a = forget_U b)
             (mpc_body_terminal (tamper g solve) nrows t st1)
             (mpc_body_terminal solve nrows t st2).
Proof.
  intros Hg Hst. destruct st1 as [p1 xi1 U1 m1 x1 X1 Ut1 J1].
  destruct st2 as [p2 xi2 U2 m2 x2 X2 Ut2 J2].
  unfold forget_U in Hst. cbn in Hst. inversion Hst; subst; clear Hst.
  unfold mpc_body_terminal, set_x_init. cbn [st_x st_Xtraj].
  destruct (set_col nrows X2 t x2) as [X'|e]; [rewrite !bind_Ok|reflexivity].
  destruct (Nat.eqb (length x2) dim_x); [rewrite !bind_Ok|reflexivity].
  unfold call_solve, tamper. cbn [st_x_init st_solver st_mpc].
  destruct (solve m2 p2 x2 false) as [sol mem|]; [rewrite !bind_Ok|reflexivity].
  cbn [fst snd st_Jtraj st_Xtraj st_x st_Utraj st_mpc st_x_init st_U st_solver
       sol_value sol_U].
  destruct (set_item J2 t (sol_value sol)) as [J'|e]; [rewrite !bind_Ok|reflexivity].
  unfold first_move. cbn [st_U].
  destruct (sol_U sol) as [Uv|]; cbn [fmap option_fmap option_map].
  - rewrite Hg. destruct (Uv !! 0%nat) as [u0|]; [rewrite !bind_Ok|reflexivity].
    destruct (apply_move x2 (Some u0)) as [x'|e]; [rewrite !bind_Ok|reflexivity].
    destruct (scalar_of (Some u0)) as [uv|e]; [rewrite !bind_Ok|reflexivity].
    destruct (set_item Ut2 t uv) as [Ut'|e]; [rewrite !bind_Ok|reflexivity].
    reflexivity.
  - rewrite !bind_Ok. reflexivity.
Qed.

(** A spying solver changes nothing but its own log. *)
Lemma mpc_body_constrained_spy (nrows t : nat)
    (st1 : nb_state (Mem * list (Problem * vec))) (st2 : nb_state Mem) :
  unspy st1 = st2 ->
  result_rel (fun a b => unspy a = b)
             (mpc_body_constrained (spy solve) nrows t st1)
             (mpc_body_constrained solve nrows t st2).
Proof.
  intros <-. destruct st1 as [p1 xi1 U1 [m1 log] x1 X1 Ut1 J1].
  unfold unspy. cbn [st_mpc st_x_init st_U st_solver st_x st_Xtraj st_Utraj st_Jtraj fst].
  unfold mpc_body_constrained, set_x_init. cbn [st_x].
  destruct (Nat.eqb (length x1) dim_x); [rewrite !bind_Ok|reflexivity].
  unfold call_solve, spy. cbn [st_x_init st_solver st_mpc fst snd].
  destruct (solve m1 p1 x1 true) as [sol mem|]; [rewrite !bind_Ok|reflexivity].
  cbn [fst snd st_Jtraj st_Xtraj st_x st_Utraj st_mpc st_x_init st_U st_solver].
  destruct (set_item J1 t (sol_value sol)) as [J'|e]; [rewrite !bind_Ok|reflexivity].
  destruct (set_col nrows X1 t x1) as [X'|e]; [rewrite !bind_Ok|reflexivity].
  unfold first_move. cbn [st_U].
  destruct (sol_U sol) as [Uv|].
  - destruct (Uv !! 0%nat) as [u0|]; [rewrite !bind_Ok|reflexivity].
    destruct (scalar_of (Some u0)) as [uv|e]; [rewrite !bind_Ok|reflexivity].
    destruct (set_item Ut1 t uv) as [Ut'|e]; [rewrite !bind_Ok|reflexivity].
    destruct (apply_move x1 (Some u0)) as [x'|e]; [rewrite !bind_Ok|reflexivity].
    reflexivity.
  - rewrite !bind_Ok.
    destruct (scalar_of None) as [uv|e]; [rewrite !bind_Ok|reflexivity].
    destruct (set_item Ut1 t uv) as [Ut'|e]; [rewrite !bind_Ok|reflexivity].
    reflexivity.
Qed.
End BodyCompare.

Section SpyLog.
Context {Mem : Type}.
Variable solve : solver Mem.
Variable w : bool.
Variable body : nat -> nb_state (Mem * list (Problem * vec))
                -> result (nb_state (Mem * list (Problem * vec))).
Hypothesis body_step :
  forall t st st', body t st = Ok st' -> mpc_step (spy solve) w t st st'.

(** The log grows by one entry per iteration: the problem the globals
    hold and the state written to [Xtraj] in that iteration. *)
Lemma spy_log_inv (n : nat) :
  forall (start : nat) (st st' : nb_state (Mem * list (Problem * vec))),
    for_range body start n st = Ok st' ->
    snd (st_solver st') =
    snd (st_solver st)
    ++ map (fun x => (st_mpc st, x)) (take n (drop start (st_Xtraj st'))).
Proof.
  induction n as [|n IH]; intros start st st' Hrun.
  - cbn [for_range] in Hrun. inversion Hrun; subst st'.
    rewrite take_0. cbn [map]. rewrite app_nil_r. reflexivity.
  - cbn [for_range] in Hrun. inv_bind Hrun. rename v into st1.
    pose proof (mpc_run_inv (spy solve) w body body_step n (S start) st1 st' Hrun)
      as (_ & _ & _ & _ & _ & Hlow & _).
    rewrite (IH (S start) st1 st' Hrun).
    apply body_step in E.
    destruct E as (sol & mem & Uv & a & Hx & Hs & HU & H0 & LX & LU & LJ & Hp & Est1).
    assert (st_Xtraj st' !! start = Some (st_x st)) as Hstart.
    { destruct (Hlow start) as (K1 & _ & _); [lia|].
      rewrite K1, Est1. cbn [st_Xtraj]. apply list_lookup_insert_eq. exact LX. }
    rewrite (drop_S _ _ _ Hstart). cbn [take map].
    unfold spy in Hs.
    destruct (solve (fst (st_solver st)) (st_mpc st) (st_x st) w) as [sol' mem'|];
      [|discriminate Hs].
    inversion Hs; subst sol' mem; clear Hs.
    rewrite Est1. cbn [st_solver st_mpc snd].
    rewrite <- app_assoc. reflexivity.
Qed.
End SpyLog.

(** ** Progress of one iteration *)

Section BodyProgress.
Context {Mem : Type}.
Variable solve : solver Mem.

Lemma first_move_ok (st : nb_state Mem) (Uv : list vec) (u0 : vec) :
  st_U st = Some Uv -> Uv !! 0%nat = Some u0 -> first_move st = Ok (Some u0).
Proof. intros HU H0. unfold first_move. rewrite HU, H0. reflexivity. Qed.

Lemma mpc_body_constrained_ok (t : nat) (st : nb_state Mem)
    (sol : solution) (mem : Mem) (Uv : list vec) (a : R) :
  length (st_x st) = 4%nat ->
  solve (st_solver st) (st_mpc st) (st_x st) true = Returned sol mem ->
  sol_U sol = Some Uv -> Uv !! 0%nat = Some [a] ->
  (t < length (st_Xtraj st))%nat -> (t < length (st_Utraj st))%nat ->
  (t < length (st_Jtraj st))%nat ->
  mpc_body_constrained solve 4 t st =
  Ok (MkState (st_mpc st) (Some (st_x st)) (Some Uv) mem
              (discrete_step (st_x st) [a])
              (<[t := st_x st]> (st_Xtraj st))
              (<[t := Finite a]> (st_Utraj st))
              (<[t := sol_value sol]> (st_Jtraj st))).
Proof.
  intros Hx Hs HU H0 LX LU LJ. unfold mpc_body_constrained, set_x_init.
  rewrite Hx. cbn [Nat.eqb dim_x]. rewrite bind_Ok.
  unfold call_solve. cbn [st_x_init st_solver st_mpc]. rewrite Hs, bind_Ok.
  cbn [fst snd st_Jtraj st_Xtraj st_x st_Utraj st_mpc st_x_init st_U st_solver].
  rewrite (set_item_ok _ _ _ LJ), bind_Ok.
  rewrite (set_col_ok _ _ _ _ LX Hx), bind_Ok.
  rewrite (first_move_ok _ Uv [a]) by (cbn [st_U]; assumption).
  rewrite bind_Ok. cbn [scalar_of]. rewrite bind_Ok.
  rewrite (set_item_ok _ _ _ LU), !bind_Ok. cbn [apply_move].
  rewrite (plant_step_value _ [a] Hx eq_refl), bind_Ok. rewrite HU. reflexivity.
Qed.

Lemma mpc_body_terminal_ok (t : nat) (st : nb_state Mem)
    (sol : solution) (mem : Mem) (Uv : list vec) (a : R) :
  length (st_x st) = 4%nat ->
  solve (st_solver st) (st_mpc st) (st_x st) false = Returned sol mem ->
  sol_U sol = Some Uv -> Uv !! 0%nat = Some [a] ->
  (t < length (st_Xtraj st))%nat -> (t < length (st_Utraj st))%nat ->
  (t < length (st_Jtraj st))%nat ->
  mpc_body_terminal solve 4 t st =
  Ok (MkState (st_mpc st) (Some (st_x st)) (Some Uv) mem
              (discrete_step (st_x st) [a])
              (<[t := st_x st]> (st_Xtraj st))
              (<[t := Finite a]> (st_Utraj st))
              (<[t := sol_value sol]> (st_Jtraj st))).
Proof.
  intros Hx Hs HU H0 LX LU LJ. unfold mpc_body_terminal, set_x_init.
  rewrite (set_col_ok _ _ _ _ LX Hx), bind_Ok.
  rewrite Hx. cbn [Nat.eqb dim_x]. rewrite bind_Ok.
  unfold call_solve. cbn [st_x_init st_solver st_mpc]. rewrite Hs, bind_Ok.
  cbn [fst snd st_Jtraj st_Xtraj st_x st_Utraj st_mpc st_x_init st_U st_solver].
  rewrite (set_item_ok _ _ _ LJ), bind_Ok.
  rewrite (first_move_ok _ Uv [a]) by (cbn [st_U]; assumption).
  rewrite bind_Ok. cbn [apply_move].
  rewrite (plant_step_value _ [a] Hx eq_refl), !bind_Ok. cbn [scalar_of].
  rewrite bind_Ok, (set_item_ok _ _ _ LU), !bind_Ok. rewrite HU. reflexivity.
Qed.

(** An iteration in which the solver call raises, or returns without a
    value in [U], raises. *)
Lemma mpc_body_constrained_raises (nrows t : nat) (st : nb_state Mem) :
  (solve (st_solver st) (st_mpc st) (st_x st) true = Raised \/
   exists sol mem, solve (st_solver st) (st_mpc st) (st_x st) true = Returned sol mem
                   /\ sol_U sol = None) ->
  exists e, mpc_body_constrained solve nrows t st = Raise e.
Proof.
  intros H.
  destruct (mpc_body_constrained solve nrows t st) as [st'|e] eqn:E;
    [|exists e; reflexivity].
  apply mpc_body_constrained_inv in E.
  destruct E as (sol & mem & Uv & a & _ & Hs & HU & _).
  destruct H as [H|(sol' & mem' & H & HN)]; rewrite H in Hs; [discriminate Hs|].
  inversion Hs; subst. rewrite HN in HU. discriminate HU.
Qed.

Lemma mpc_body_terminal_raises (nrows t : nat) (st : nb_state Mem) :
  (solve (st_solver st) (st_mpc st) (st_x st) false = Raised \/
   exists sol mem, solve (st_solver st) (st_mpc st) (st_x st) false = Returned sol mem
                   /\ sol_U sol = None) ->
  exists e, mpc_body_terminal solve nrows t st = Raise e.
Proof.
  intros H.
  destruct (mpc_body_terminal solve nrows t st) as [st'|e] eqn:E;
    [|exists e; reflexivity].
  apply mpc_body_terminal_inv in E.
  destruct E as (sol & mem & Uv & a & _ & Hs & HU & _).
  destruct H as [H|(sol' & mem' & H & HN)]; rewrite H in Hs; [discriminate Hs|].
  inversion Hs; subst. rewrite HN in HU. discriminate HU.
Qed.
End BodyProgress.

(** ** The receding-horizon loops *)

Lemma loop_init_lengths {Mem : Type} (jX : nat -> vec) (jU jJ : nat -> xfloat)
    (p : Problem) (mem : Mem) (x0 : vec) (steps : nat) :
  length (st_Xtraj (loop_init jX jU jJ p mem x0 steps)) = steps /\
  length (st_Utraj (loop_init jX jU jJ p mem x0 steps)) = steps /\
  length (st_Jtraj (loop_init jX jU jJ p mem x0 steps)) = steps.
Proof.
  unfold loop_init, np_empty. cbn [st_Xtraj st_Utraj st_Jtraj].
  rewrite !length_map, length_seq. auto.
Qed.

Lemma mpc_run_trajectory {Mem : Type} (solve : solver Mem) (w : bool)
    (body : nat -> nb_state Mem -> result (nb_state Mem))
    (jX : nat -> vec) (jU jJ : nat -> xfloat)
    (p : Problem) (mem : Mem) (x0 : vec) (steps : nat) (final : nb_state Mem) :
  (forall t st st', body t st = Ok st' -> mpc_step solve w t st st') ->
  for_range body 0 steps (loop_init jX jU jJ p mem x0 steps) = Ok final ->
  st_mpc final = p /\ length (st_Xtraj final) = steps /\
  trajectory_ok solve w p x0 steps final.
Proof.
  intros Hbody Hrun.
  destruct (mpc_run_inv solve w body Hbody steps 0%nat _ _ Hrun)
    as (Em & EX & _ & _ & _ & _ & _ & Hfirst & Hall).
  destruct (loop_init_lengths jX jU jJ p mem x0 steps) as (LX & _ & _).
  split; [exact Em|]. split; [rewrite EX; exact LX|].
  split; [exact Hfirst|].
  intros t Ht. apply Hall. lia.
Qed.

(** C2: in both MPC loops, an iteration that returns has set the parameter
    to the current state, solved the problem for it, and moved the plant
    to [Ad x + Bd u] for the first column [u] of the value the solve left
    in [U]; so in a run, the state after iteration [t] is that successor of
    column [t] of [Xtraj].  Changing the value left in [U] anywhere but in
    its first column changes nothing in the outcome of the run except the
    value of [U] itself. *)
Theorem mpc_loops_apply_first_move {Mem : Type} (solve : solver Mem)
    (g : list vec -> list vec) (jX : nat -> vec) (jU jJ : nat -> xfloat)
    (p : Problem) (mem : Mem) (x0 : vec) (steps : nat) :
  (forall Uv, g Uv !! 0%nat = Uv !! 0%nat) ->
  (forall nrows t st st',
     mpc_body_constrained solve nrows t st = Ok st' -> mpc_step solve true t st st') /\
  (forall nrows t st st',
     mpc_body_terminal solve nrows t st = Ok st' -> mpc_step solve false t st st') /\
  (forall final,
     mpc_loop_constrained solve jX jU jJ p mem x0 steps = Ok final ->
     trajectory_ok solve true p x0 steps final) /\
  (forall final,
     mpc_loop_terminal solve jX jU jJ p mem x0 steps = Ok final ->
     trajectory_ok solve false p x0 steps final) /\
  map_result forget_U (mpc_loop_constrained (tamper g solve) jX jU jJ p mem x0 steps)
  = map_result forget_U (mpc_loop_constrained solve jX jU jJ p mem x0 steps) /\
  map_result forget_U (mpc_loop_terminal (tamper g solve) jX jU jJ p mem x0 steps)
  = map_result forget_U (mpc_loop_terminal solve jX jU jJ p mem x0 steps).
Proof.
  intros Hg. split; [|split; [|split; [|split; [|split]]]].
  - intros nrows t st st'. apply mpc_body_constrained_inv.
  - intros nrows t st st'. apply mpc_body_terminal_inv.
  - intros final Hrun.
    apply (mpc_run_trajectory solve true _ jX jU jJ p mem x0 steps final
             (mpc_body_constrained_inv solve (length x0))).
    exact Hrun.
  - intros final Hrun.
    apply (mpc_run_trajectory solve false _ jX jU jJ p mem x0 steps final
             (mpc_body_terminal_inv solve (length x0))).
    exact Hrun.
  - apply result_rel_map. unfold mpc_loop_constrained.
    apply for_range_sim; [|reflexivity].
    intros t s1 s2 Hs. apply mpc_body_constrained_tamper; assumption.
  - apply result_rel_map. unfold mpc_loop_terminal.
    apply for_range_sim; [|reflexivity].
    intros t s1 s2 Hs. apply mpc_body_terminal_tamper; assumption.
Qed.

(** C8: a run of the input-constrained loop leaves the problem it started
    with in place, and every solve of the run receives that same problem;
    from one solve to the next only the parameter value differs, and it is
    the state written to [Xtraj] in that iteration.  The calls are observed
    by a spying solver, which does not change the run. *)
Theorem problem_is_built_once {Mem : Type} (solve : solver Mem)
    (jX : nat -> vec) (jU jJ : nat -> xfloat)
    (p : Problem) (mem : Mem) (x0 : vec) (steps : nat)
    (final : nb_state (Mem * list (Problem * vec))) :
  mpc_loop_constrained (spy solve) jX jU jJ p (mem, []) x0 steps = Ok final ->
  st_mpc final = p /\
  length (st_Xtraj final) = steps /\
  snd (st_solver final) = map (fun x => (p, x)) (st_Xtraj final) /\
  mpc_loop_constrained solve jX jU jJ p mem x0 steps = Ok (unspy final).
Proof.
  intros Hrun. unfold mpc_loop_constrained in Hrun.
  pose proof (mpc_body_constrained_inv (spy solve) (length x0)) as Hbody.
  destruct (mpc_run_trajectory (spy solve) true _ jX jU jJ p (mem, []) x0 steps final
              Hbody Hrun) as (Em & EX & _).
  split; [exact Em|]. split; [exact EX|]. split.
  - rewrite (spy_log_inv solve true _ Hbody steps 0%nat _ _ Hrun).
    cbn [loop_init st_solver st_mpc snd app]. rewrite drop_0.
    rewrite take_ge by (rewrite EX; lia). reflexivity.
  - pose proof (for_range_sim (fun a b => unspy a = b)
                  (mpc_body_constrained (spy solve) (length x0))
                  (mpc_body_constrained solve (length x0))
                  (fun t s1 s2 => mpc_body_constrained_spy solve (length x0) t s1 s2)
                  steps 0%nat (loop_init jX jU jJ p (mem, []) x0 steps)
                  (loop_init jX jU jJ p mem x0 steps) eq_refl) as Hsim.
    rewrite Hrun in Hsim. unfold mpc_loop_constrained.
    destruct (for_range (mpc_body_constrained solve (length x0)) 0 steps
                (loop_init jX jU jJ p mem x0 steps)) as [v|e];
      cbn [result_rel] in Hsim; [congruence|contradiction].
Qed.



(** C9 (as amended): the loops use the outcome of a solve unchecked.  The
    status a solve reports has no influence on an iteration.  An iteration
    raises when the solver call itself raises or leaves [U] without a
    value.  When the solve returns and leaves a value in [U] whose first
    column has one entry, an iteration on a state of four entries and an
    index within the arrays returns, with the plant moved under that
    column, whatever the status. *)
Theorem solve_outcome_is_used_unchecked {Mem : Type} (solve : solver Mem)
    (f : status -> status) (nrows t : nat) (st : nb_state Mem) :
  mpc_body_constrained (restatus f solve) nrows t st
    = mpc_body_constrained solve nrows t st /\
  mpc_body_terminal (restatus f solve) nrows t st
    = mpc_body_terminal solve nrows t st /\
  ((solve (st_solver st) (st_mpc st) (st_x st) true = Raised \/
    exists sol mem, solve (st_solver st) (st_mpc st) (st_x st) true = Returned sol mem
                    /\ sol_U sol = None) ->
   exists e, mpc_body_constrained solve nrows t st = Raise e) /\
  ((solve (st_solver st) (st_mpc st) (st_x st) false = Raised \/
    exists sol mem, solve (st_solver st) (st_mpc st) (st_x st) false = Returned sol mem
                    /\ sol_U sol = None) ->
   exists e, mpc_body_terminal solve nrows t st = Raise e) /\
  (forall sol mem Uv a,
     nrows = 4%nat -> length (st_x st) = 4%nat ->
     (t < length (st_Xtraj st))%nat -> (t < length (st_Utraj st))%nat ->
     (t < length (st_Jtraj st))%nat ->
     sol_U sol = Some Uv -> Uv !! 0%nat = Some [a] ->
     (solve (st_solver st) (st_mpc st) (st_x st) true = Returned sol mem ->
      exists st', mpc_body_constrained solve nrows t st = Ok st' /\
                  plant_step (st_x st) [a] = Ok (st_x st')) /\
     (solve (st_solver st) (st_mpc st) (st_x st) false = Returned sol mem ->
      exists st', mpc_body_terminal solve nrows t st = Ok st' /\
                  plant_step (st_x st) [a] = Ok (st_x st'))).
Proof.
  split; [apply mpc_body_constrained_restatus|].
  split; [apply mpc_body_terminal_restatus|].
  split; [apply mpc_body_constrained_raises|].
  split; [apply mpc_body_terminal_raises|].
  intros sol mem Uv a -> Hx LX LU LJ HU H0. split; intros Hs.
  - eexists. split.
    + apply (mpc_body_constrained_ok solve t st sol mem Uv a); assumption.
    + cbn [st_x]. apply plant_step_value; [exact Hx|reflexivity].
  - eexists. split.
    + apply (mpc_body_terminal_ok solve t st sol mem Uv a); assumption.
    + cbn [st_x]. apply plant_step_value; [exact Hx|reflexivity].
Qed.

(** ** Examples on a concrete run *)

Lemma mpc_loops_apply_first_move_witness :
  (forall Uv : list vec, take 1 Uv !! 0%nat = Uv !! 0%nat) /\
  braking_solver 0%nat long_mpc x0_mpc true
    = Returned (MkSolution Solved (Finite 0) (Some [[- (1)]; [3]; [4]])) 1%nat /\
  tamper (take 1) braking_solver 0%nat long_mpc x0_mpc true
    = Returned (MkSolution Solved (Finite 0) (Some [[- (1)]])) 1%nat /\
  (exists final,
     mpc_loop_constrained braking_solver junk_col junk_float junk_float
                          long_mpc 0%nat x0_mpc 2 = Ok final /\
     st_Utraj final !! 0%nat = Some (Finite (- (1))) /\
     trajectory_ok braking_solver true long_mpc x0_mpc 2 final) /\
  (exists final,
     mpc_loop_terminal braking_solver junk_col junk_float junk_float
                       long_mpc 0%nat x0_mpc 2 = Ok final /\
     st_Utraj final !! 0%nat = Some (Finite (- (1))) /\
     trajectory_ok braking_solver false long_mpc x0_mpc 2 final) /\
  map_result forget_U
    (mpc_loop_constrained (tamper (take 1) braking_solver) junk_col junk_float junk_float
                          long_mpc 0%nat x0_mpc 2)
  = map_result forget_U
      (mpc_loop_constrained braking_solver junk_col junk_float junk_float
                            long_mpc 0%nat x0_mpc 2) /\
  map_result forget_U
    (mpc_loop_terminal (tamper (take 1) braking_solver) junk_col junk_float junk_float
                       long_mpc 0%nat x0_mpc 2)
  = map_result forget_U
      (mpc_loop_terminal braking_solver junk_col junk_float junk_float
                         long_mpc 0%nat x0_mpc 2).
Proof.
  assert (forall Uv : list vec, take 1 Uv !! 0%nat = Uv !! 0%nat) as Hg
    by (intros [|u Uv]; reflexivity).
  destruct (mpc_loops_apply_first_move braking_solver (take 1)
              junk_col junk_float junk_float long_mpc 0%nat x0_mpc 2 Hg)
    as (_ & _ & Hc & Ht & Hsame & Hsame').
  split; [exact Hg|].
  split; [reflexivity|]. split; [reflexivity|].
  split; [eexists; split; [vm_compute; reflexivity|];
          split; [vm_compute; reflexivity|apply Hc; vm_compute; reflexivity]|].
  split; [eexists; split; [vm_compute; reflexivity|];
          split; [vm_compute; reflexivity|apply Ht; vm_compute; reflexivity]|].
  split; [exact Hsame|exact Hsame'].
Defined.

Lemma problem_is_built_once_witness :
  exists final,
    mpc_loop_constrained (spy idle_solver) junk_col junk_float junk_float
                         small_mpc (tt, []) x0_mpc 2 = Ok final /\
    st_mpc final = small_mpc /\
    length (st_Xtraj final) = 2%nat /\
    snd (st_solver final) = map (fun x => (small_mpc, x)) (st_Xtraj final) /\
    mpc_loop_constrained idle_solver junk_col junk_float junk_float
                         small_mpc tt x0_mpc 2 = Ok (unspy final).
Proof.
  eexists. split; [vm_compute; reflexivity|].
  apply (problem_is_built_once idle_solver). vm_compute. reflexivity.
Defined.





(** C9, as stated, fails: a solve that reports non-convergence and leaves
    the control 5 in [U] does not stop the loop; the iteration returns and
    the plant has moved under that control. *)
Lemma unconverged_control_is_applied :
  sol_status (MkSolution (Failed NonConvergence) (Finite 0) (Some [[5]]))
    = Failed NonConvergence /\
  unconverged_solver tt small_mpc x0_mpc true
    = Returned (MkSolution (Failed NonConvergence) (Finite 0) (Some [[5]])) tt /\
  mpc_loop_constrained unconverged_solver junk_col junk_float junk_float
                       small_mpc tt x0_mpc 1
    = Ok (MkState small_mpc (Some x0_mpc) (Some [[5]]) tt
                  (discrete_step x0_mpc [5]) [x0_mpc] [Finite 5] [Finite 0]) /\
  ~ (exists e, mpc_loop_constrained unconverged_solver junk_col junk_float
                 junk_float small_mpc tt x0_mpc 1 = Raise e).
Proof.
  assert (mpc_loop_constrained unconverged_solver junk_col junk_float junk_float
                               small_mpc tt x0_mpc 1
          = Ok (MkState small_mpc (Some x0_mpc) (Some [[5]]) tt
                        (discrete_step x0_mpc [5]) [x0_mpc] [Finite 5] [Finite 0])) as Hrun.
  { unfold mpc_loop_constrained. cbn [for_range].
    rewrite (mpc_body_constrained_ok unconverged_solver 0 _
               (MkSolution (Failed NonConvergence) (Finite 0) (Some [[5]])) tt
               [[5]] 5); try reflexivity; cbn; lia. }
  split; [reflexivity|]. split; [reflexivity|]. split; [exact Hrun|].
  intros [e He]. rewrite Hrun in He. discriminate He.
Qed.

Lemma solve_outcome_is_used_unchecked_witness :
  exists st',
    mpc_body_constrained unconverged_solver 4 0
      (loop_init junk_col junk_float junk_float small_mpc tt x0_mpc 1) = Ok st' /\
    plant_step x0_mpc [5] = Ok (st_x st').
Proof.
  destruct (solve_outcome_is_used_unchecked unconverged_solver (fun s => s) 4 0
              (loop_init junk_col junk_float junk_float small_mpc tt x0_mpc 1))
    as (_ & _ & _ & _ & H).
  destruct (H (MkSolution (Failed NonConvergence) (Finite 0) (Some [[5]])) tt [[5]] 5)
    as [Hc _]; try reflexivity; try (cbn; lia).
  apply Hc. reflexivity.
Defined.

(** * Further properties of the notebook's code *)

(** ** Loops that agree step by step *)

Lemma for_range_sim_ix {T1 T2 : Type} (Rel : nat -> T1 -> T2 -> Prop)
    (body1 : nat -> T1 -> result T1) (body2 : nat -> T2 -> result T2) (stop : nat) :
  (forall t s1 s2, (t < stop)%nat -> Rel t s1 s2 ->
     result_rel (Rel (S t)) (body1 t s1) (body2 t s2)) ->
  forall n start s1 s2,
    (start + n <= stop)%nat -> Rel start s1 s2 ->
    result_rel (Rel (start + n)%nat)
               (for_range body1 start n s1) (for_range body2 start n s2).
Proof.
  intros Hbody. induction n as [|n IH]; intros start s1 s2 Hle Hrel.
  - rewrite Nat.add_0_r. exact Hrel.
  - cbn [for_range]. specialize (Hbody start s1 s2 ltac:(lia) Hrel).
    destruct (body1 start s1) as [v1|e1], (body2 start s2) as [v2|e2];
      cbn [result_rel] in Hbody; try contradiction.
    + rewrite !bind_Ok. replace (start + S n)%nat with (S start + n)%nat by lia.
      apply IH; [lia|exact Hbody].
    + rewrite !bind_Raise. exact Hbody.
Qed.

Lemma for_range_app {St : Type} (body : nat -> St -> result St)
    (n m start : nat) (st : St) :
  for_range body start (n + m) st =
  mbind (for_range body (start + n) m) (for_range body start n st).
Proof.
  revert start st. induction n as [|n IH]; intros start st.
  - cbn [for_range Nat.add]. rewrite bind_Ok, Nat.add_0_r. reflexivity.
  - cbn [for_range Nat.add]. destruct (body start st) as [st'|e].
    + rewrite !bind_Ok, IH. replace (S start + n)%nat with (start + S n)%nat by lia.
      reflexivity.
    + rewrite !bind_Raise. reflexivity.
Qed.

(** Two lists of one length that agree below that length are equal. *)
Lemma list_eq_upto {T : Type} (l1 l2 : list T) (n : nat) :
  length l1 = n -> length l2 = n ->
  (forall i, (i < n)%nat -> l1 !! i = l2 !! i) -> l1 = l2.
Proof.
  intros H1 H2 H. apply list_eq. intros i.
  destruct (Nat.lt_ge_cases i n) as [Hi|Hi]; [apply H; exact Hi|].
  rewrite !lookup_ge_None_2 by lia. reflexivity.
Qed.

Lemma np_empty_length {T : Type} (junk : nat -> T) (n : nat) :
  length (np_empty junk n) = n.
Proof. unfold np_empty. rewrite length_map, length_seq. reflexivity. Qed.

(** Writing the same column at the same place keeps two arrays of one
    length in agreement wherever they agreed, and makes them agree there. *)
Lemma set_col_agree (nrows : nat) (X1 X2 : list vec) (t : nat) (v : vec) (L b : nat) :
  length X1 = L -> length X2 = L ->
  (forall i, (i < b)%nat -> X1 !! i = X2 !! i) ->
  result_rel (fun Y1 Y2 => length Y1 = L /\ length Y2 = L /\
                           forall i, (i < b \/ i = t)%nat -> Y1 !! i = Y2 !! i)
             (set_col nrows X1 t v) (set_col nrows X2 t v).
Proof.
  intros H1 H2 Hag. unfold set_col. rewrite H1, H2.
  destruct (Nat.ltb t L) eqn:Ht; cbn [negb]; [|reflexivity].
  apply Nat.ltb_lt in Ht.
  assert (forall w : vec,
            length (<[t := w]> X1) = L /\ length (<[t := w]> X2) = L /\
            forall i, (i < b \/ i = t)%nat -> <[t := w]> X1 !! i = <[t := w]> X2 !! i) as Hins.
  { intros w. rewrite !length_insert. split; [exact H1|]. split; [exact H2|].
    intros i Hi. destruct (Nat.eq_dec i t) as [->|Hne].
    - rewrite !list_lookup_insert_eq by lia. reflexivity.
    - rewrite !list_lookup_insert_ne by lia. apply Hag. lia. }
  destruct (Nat.eqb (length v) nrows); [apply Hins|].
  destruct v as [|a [|c v]]; cbn [result_rel]; try reflexivity. apply Hins.
Qed.

Lemma set_item_agree {T : Type} (a1 a2 : list T) (t : nat) (v : T) (L b : nat) :
  length a1 = L -> length a2 = L ->
  (forall i, (i < b)%nat -> a1 !! i = a2 !! i) ->
  result_rel (fun c1 c2 => length c1 = L /\ length c2 = L /\
                           forall i, (i < b \/ i = t)%nat -> c1 !! i = c2 !! i)
             (set_item a1 t v) (set_item a2 t v).
Proof.
  intros H1 H2 Hag. unfold set_item. rewrite H1, H2.
  destruct (Nat.ltb t L) eqn:Ht; [|reflexivity].
  apply Nat.ltb_lt in Ht. cbn [result_rel]. rewrite !length_insert.
  split; [exact H1|]. split; [exact H2|].
  intros i Hi. destruct (Nat.eq_dec i t) as [->|Hne].
  - rewrite !list_lookup_insert_eq by lia. reflexivity.
  - rewrite !list_lookup_insert_ne by lia. apply Hag. lia.
Qed.

(** ** integrateOpenLoop: what it does not depend on, and when it raises *)


Lemma result_rel_bind {T1 T2 T3 T4 : Type}
    (Rel1 : T1 -> T2 -> Prop) (Rel2 : T3 -> T4 -> Prop)
    (r1 : result T1) (r2 : result T2)
    (f1 : T1 -> result T3) (f2 : T2 -> result T4) :
  result_rel Rel1 r1 r2 ->
  (forall a b, Rel1 a b -> result_rel Rel2 (f1 a) (f2 b)) ->
  result_rel Rel2 (mbind f1 r1) (mbind f2 r2).
Proof.
  intros H Hf. destruct r1 as [a|e1], r2 as [b|e2]; cbn [result_rel] in H;
    try contradiction.
  - rewrite !bind_Ok. apply Hf. exact H.
  - rewrite !bind_Raise. exact H.
Qed.

Lemma result_rel_eq {T : Type} (r : result T) : result_rel eq r r.
Proof. destruct r; reflexivity. Qed.

Lemma result_rel_eq_inv {T : Type} (r1 r2 : result T) :
  result_rel eq r1 r2 -> r1 = r2.
Proof.
  destruct r1, r2; cbn [result_rel]; intros H; try contradiction; congruence.
Qed.

Lemma result_rel_impl {T1 T2 : Type} (Rel1 Rel2 : T1 -> T2 -> Prop)
    (r1 : result T1) (r2 : result T2) :
  (forall a b, Rel1 a b -> Rel2 a b) ->
  result_rel Rel1 r1 r2 -> result_rel Rel2 r1 r2.
Proof.
  intros Himp. destruct r1, r2; cbn [result_rel]; auto.
Qed.

Lemma ol_body_agree (h : R) (L t : nat) (f1 f2 : ol_frame) :
  ol_agree L t f1 f2 ->
  result_rel (ol_agree L (S t)) (ol_body h t f1) (ol_body h t f2).
Proof.
  intros (E0 & EU & L1 & L2 & Hag). unfold ol_body.
  assert (get_col (fr_X f1) t = get_col (fr_X f2) t) as ->
    by (unfold get_col; rewrite (Hag t (Nat.le_refl t)); reflexivity).
  rewrite EU, E0.
  destruct (get_col (fr_X f2) t) as [x|e]; [rewrite !bind_Ok|reflexivity].
  destruct (get_col (fr_U f2) t) as [u|e]; [rewrite !bind_Ok|reflexivity].
  destruct (euler_step x u h) as [xnext|e]; [rewrite !bind_Ok|reflexivity].
  eapply result_rel_bind.
  - apply (set_col_agree (length (fr_x0 f2)) (fr_X f1) (fr_X f2) (t + 1) xnext L (S t));
      [exact L1|exact L2|].
    intros i Hi. apply Hag. lia.
  - intros Y1 Y2 (K1 & K2 & K3). cbn [result_rel].
    unfold ol_agree. cbn [fr_x0 fr_U fr_X].
    repeat split; try assumption; try reflexivity. intros i Hi. apply K3. lia.
Qed.

(** X1: what integrateOpenLoop returns (or raises) does not depend on the
    contents [np.empty] left in [X]. *)
Theorem integrateOpenLoop_ignores_uninitialised
    (junk1 junk2 : nat -> vec) (x0 : vec) (U : list vec) (steps : nat) (h : R) :
  integrateOpenLoop junk1 x0 U steps h = integrateOpenLoop junk2 x0 U steps h.
Proof.
  apply result_rel_eq_inv. unfold integrateOpenLoop, integrateOpenLoop_frame.
  eapply result_rel_bind; [eapply result_rel_bind|].
  - apply (set_col_agree (length x0) (np_empty junk1 (steps + 1))
             (np_empty junk2 (steps + 1)) 0 x0 (steps + 1) 0);
      [apply np_empty_length|apply np_empty_length|].
    intros i Hi. lia.
  - intros Y1 Y2 (K1 & K2 & K3).
    apply (for_range_sim_ix (ol_agree (steps + 1)) (ol_body h) (ol_body h) steps).
    + intros t s1 s2 _. apply ol_body_agree.
    + lia.
    + unfold ol_agree. cbn [fr_x0 fr_U fr_X]. repeat split; try assumption.
      intros i Hi. apply K3. lia.
  - intros f1 f2 (_ & _ & L1 & L2 & Hag). cbn [result_rel Nat.add] in *.
    apply (list_eq_upto _ _ (steps + 1) L1 L2). intros i Hi. apply Hag. lia.
Qed.

(** The recurrence of the Euler trajectory determines it. *)
Lemma euler_traj_unique (h : R) (n : nat) :
  forall (X : list vec) (x0 : vec) (U : list vec),
    length X = S n -> X !! 0%nat = Some x0 ->
    (forall t, (t < n)%nat ->
       exists xt ut, X !! t = Some xt /\ U !! t = Some ut /\
                     X !! (t + 1)%nat = Some (euler xt ut h)) ->
    X = euler_traj h x0 U n.
Proof.
  induction n as [|n IH]; intros X x0 U HL H0 Hrec.
  - destruct X as [|x [|y X]]; try discriminate HL.
    cbn in H0. inversion H0. destruct U; reflexivity.
  - destruct X as [|x X]; [discriminate HL|].
    cbn in H0. inversion H0; subst x.
    destruct (Hrec 0%nat ltac:(lia)) as (xt & ut & K1 & K2 & K3).
    cbn in K1. inversion K1; subst xt.
    destruct U as [|u U]; [discriminate K2|]. cbn in K2. inversion K2; subst ut.
    cbn [euler_traj]. f_equal. apply IH.
    + cbn in HL. lia.
    + exact K3.
    + intros t Ht. destruct (Hrec (S t) ltac:(lia)) as (xt & ut & J1 & J2 & J3).
      exists xt, ut. repeat split; assumption.
Qed.

Lemma euler_traj_length (h : R) (n : nat) :
  forall (x : vec) (U : list vec),
    (n <= length U)%nat -> length (euler_traj h x U n) = S n.
Proof.
  induction n as [|n IH]; intros x U Hn.
  - destruct U; reflexivity.
  - destruct U as [|u U]; [cbn in Hn; lia|].
    cbn [euler_traj length]. rewrite IH; [reflexivity|cbn in Hn; lia].
Qed.

Lemma euler_traj_take (h : R) (n' : nat) :
  forall (n : nat) (x : vec) (U : list vec),
    (n' <= n)%nat -> (n <= length U)%nat ->
    euler_traj h x U n' = take (S n') (euler_traj h x U n).
Proof.
  induction n' as [|n' IH]; intros n x U Hle Hn.
  - destruct n as [|n], U as [|u U]; reflexivity.
  - destruct n as [|n]; [lia|]. destruct U as [|u U]; [cbn in Hn; lia|].
    cbn [euler_traj take]. f_equal. apply IH; [lia|cbn in Hn; lia].
Qed.

(** integrateOpenLoop computes the Euler trajectory. *)
Lemma integrateOpenLoop_traj
    (junk : nat -> vec) (x0 : vec) (U : list vec) (steps : nat) (h : R) :
  length x0 = 4%nat ->
  Forall (fun u => length u = 1%nat) U ->
  (steps <= length U)%nat ->
  integrateOpenLoop junk x0 U steps h = Ok (euler_traj h x0 U steps).
Proof.
  intros H0 HU Hsteps.
  pose proof (np_empty_length junk (steps + 1)) as Hlen.
  set (X0 := <[0%nat := x0]> (np_empty junk (steps + 1))).
  assert (integrateOpenLoop_frame junk x0 U steps h
          = for_range (ol_body h) 0 steps (OlFrame x0 U X0)) as Hstart.
  { unfold integrateOpenLoop_frame.
    rewrite set_col_ok; [reflexivity| |reflexivity]. rewrite Hlen. lia. }
  destruct (ol_loop_inv h steps 0%nat (OlFrame x0 U X0) x0)
    as (f & Hrun & E0 & EU & EL & Hlow & Hhigh); cbn [fr_x0 fr_U fr_X] in *.
  - exact H0.
  - exact HU.
  - lia.
  - unfold X0. rewrite length_insert, Hlen. lia.
  - unfold X0. apply list_lookup_insert_eq. rewrite Hlen. lia.
  - exact H0.
  - unfold integrateOpenLoop. rewrite Hstart, Hrun, bind_Ok. f_equal.
    apply euler_traj_unique.
    + rewrite EL. unfold X0. rewrite length_insert, Hlen. lia.
    + rewrite Hlow by lia. unfold X0. apply list_lookup_insert_eq. rewrite Hlen. lia.
    + intros t Ht. apply Hhigh. lia.
Qed.

(** X2: running more steps only appends: the trajectory of [n'] steps is
    the first [n'+1] columns of the trajectory of [n >= n'] steps under the
    same controls. *)
Theorem integrateOpenLoop_prefix
    (junk : nat -> vec) (x0 : vec) (U : list vec) (n' n : nat) (h : R) :
  length x0 = 4%nat ->
  Forall (fun u => length u = 1%nat) U ->
  (n' <= n)%nat -> (n <= length U)%nat ->
  exists X,
    integrateOpenLoop junk x0 U n h = Ok X /\
    integrateOpenLoop junk x0 U n' h = Ok (take (n' + 1) X).
Proof.
  intros H0 HU Hle Hn. exists (euler_traj h x0 U n).
  split; [apply integrateOpenLoop_traj; assumption|].
  rewrite integrateOpenLoop_traj by (try assumption; lia).
  rewrite (euler_traj_take h n' n x0 U Hle Hn).
  replace (n' + 1)%nat with (S n') by lia. reflexivity.
Qed.

Lemma integrateOpenLoop_prefix_witness :
  exists X,
    integrateOpenLoop junk_col x0_mpc [[1]; [2]; [3]] 3 dt = Ok X /\
    integrateOpenLoop junk_col x0_mpc [[1]; [2]; [3]] 1 dt = Ok (take (1 + 1) X).
Proof.
  apply (integrateOpenLoop_prefix junk_col x0_mpc [[1]; [2]; [3]] 1 3 dt).
  - reflexivity.
  - repeat constructor.
  - lia.
  - simpl. lia.
Defined.

(** The loop from iteration [start] on, in an array that may be longer
    than the iterations need. *)
Lemma ol_loop_run (h : R) (n : nat) :
  forall (start : nat) (f : ol_frame) (xs : vec),
    length (fr_x0 f) = 4%nat ->
    Forall (fun u => length u = 1%nat) (fr_U f) ->
    (start + n <= length (fr_U f))%nat ->
    (start + n < length (fr_X f))%nat ->
    fr_X f !! start = Some xs -> length xs = 4%nat ->
    exists f' xe,
      for_range (ol_body h) start n f = Ok f' /\
      fr_x0 f' = fr_x0 f /\ fr_U f' = fr_U f /\
      length (fr_X f') = length (fr_X f) /\
      fr_X f' !! (start + n)%nat = Some xe /\ length xe = 4%nat.
Proof.
  induction n as [|n IH]; intros start f xs H0 HU Hn HX Hxs Hlen.
  - exists f, xs. cbn [for_range]. rewrite Nat.add_0_r. repeat split; auto.
  - destruct (lookup_lt_is_Some_2 (fr_U f) start) as [u Hu]; [lia|].
    assert (length u = 1%nat) as Hul.
    { rewrite Forall_forall in HU. apply HU.
      eapply list_elem_of_lookup_2. exact Hu. }
    cbn [for_range].
    rewrite (ol_body_ok h start f xs u H0 Hxs Hlen Hu Hul) by lia.
    rewrite bind_Ok.
    set (f1 := OlFrame (fr_x0 f) (fr_U f)
                       (<[(start + 1)%nat := euler xs u h]> (fr_X f))).
    destruct (IH (S start) f1 (euler xs u h)) as (f' & xe & Hrun & E0 & EU & EL & He & Hel).
    + exact H0.
    + exact HU.
    + unfold f1. cbn [fr_U]. lia.
    + unfold f1. cbn [fr_X]. rewrite length_insert. lia.
    + unfold f1. cbn [fr_X]. replace (S start) with (start + 1)%nat by lia.
      apply list_lookup_insert_eq. lia.
    + apply euler_length. exact Hlen.
    + exists f', xe. split; [exact Hrun|]. split; [exact E0|]. split; [exact EU|].
      split; [rewrite EL; unfold f1; cbn [fr_X]; apply length_insert|].
      replace (start + S n)%nat with (S start + n)%nat by lia. split; assumption.
Qed.

(** X3: with fewer control columns than steps, integrateOpenLoop raises
    IndexError (at the first step without a control), whatever the states
    computed before. *)
Theorem integrateOpenLoop_short_controls
    (junk : nat -> vec) (x0 : vec) (U : list vec) (steps : nat) (h : R) :
  length x0 = 4%nat ->
  Forall (fun u => length u = 1%nat) U ->
  (length U < steps)%nat ->
  integrateOpenLoop junk x0 U steps h = Raise IndexError.
Proof.
  intros H0 HU Hshort.
  assert (exists m, steps = (length U + S m)%nat) as [m ->]
    by (exists (steps - length U - 1)%nat; lia).
  pose proof (np_empty_length junk (length U + S m + 1)) as Hlen.
  unfold integrateOpenLoop, integrateOpenLoop_frame.
  rewrite set_col_ok; [|rewrite Hlen; lia|reflexivity]. rewrite bind_Ok.
  rewrite for_range_app.
  destruct (ol_loop_run h (length U) 0%nat
              (OlFrame x0 U (<[0%nat := x0]> (np_empty junk (length U + S m + 1)))) x0)
    as (f' & xe & Hrun & E0 & EU & EL & He & Hel); cbn [fr_x0 fr_U fr_X] in *.
  - exact H0.
  - exact HU.
  - lia.
  - rewrite length_insert, Hlen. lia.
  - apply list_lookup_insert_eq. rewrite Hlen. lia.
  - exact H0.
  - rewrite Hrun, bind_Ok. cbn [for_range Nat.add] in *.
    assert (ol_body h (length U) f' = Raise IndexError) as ->; [|reflexivity].
    unfold ol_body. rewrite (get_col_ok _ _ _ He), bind_Ok.
    unfold get_col. rewrite EU, (lookup_ge_None_2 U (length U)) by lia.
    reflexivity.
Qed.

Lemma integrateOpenLoop_short_controls_witness :
  integrateOpenLoop junk_col x0_mpc [[1]; [2]] 5 dt = Raise IndexError.
Proof.
  apply (integrateOpenLoop_short_controls junk_col x0_mpc [[1]; [2]] 5 dt).
  - reflexivity.
  - repeat constructor.
  - simpl. lia.
Defined.

Lemma xdot_shape_mismatch (x u : vec) :
  length x <> 4%nat \/ length u <> 1%nat -> xdot x u = Raise ValueError.
Proof.
  intros H. unfold xdot.
  destruct (Nat.eq_dec (length x) 4%nat) as [Hx|Hx].
  - rewrite (np_dot_ok A x) by (eapply rows_at; [apply rows_A|exact Hx]).
    rewrite bind_Ok. destruct H as [H|H]; [contradiction|].
    assert (np_dot B u = Raise ValueError) as ->; [|reflexivity].
    unfold np_dot, B. cbn [forallb length].
    destruct (Nat.eqb_spec 1%nat (length u)) as [E|E]; [congruence|reflexivity].
  - assert (np_dot A x = Raise ValueError) as ->; [|reflexivity].
    unfold np_dot, A. cbn [forallb length].
    destruct (Nat.eqb_spec 4%nat (length x)) as [E|E]; [congruence|reflexivity].
Qed.

(** X4: a state that does not have four entries, or a first control that
    does not have one, makes integrateOpenLoop raise ValueError as soon as
    it takes a step. *)
Theorem integrateOpenLoop_shape_mismatch
    (junk : nat -> vec) (x0 u : vec) (U : list vec) (steps : nat) (h : R) :
  (1 <= steps)%nat -> U !! 0%nat = Some u ->
  length x0 <> 4%nat \/ length u <> 1%nat ->
  integrateOpenLoop junk x0 U steps h = Raise ValueError.
Proof.
  intros Hs HU Hbad. destruct steps as [|n]; [lia|].
  pose proof (np_empty_length junk (S n + 1)) as Hlen.
  unfold integrateOpenLoop, integrateOpenLoop_frame.
  rewrite set_col_ok; [|rewrite Hlen; lia|reflexivity]. rewrite bind_Ok.
  cbn [for_range].
  assert (ol_body h 0 (OlFrame x0 U (<[0%nat := x0]> (np_empty junk (S n + 1))))
          = Raise ValueError) as ->; [|reflexivity].
  unfold ol_body. cbn [fr_x0 fr_U fr_X].
  rewrite (get_col_ok (<[0%nat := x0]> (np_empty junk (S n + 1))) 0%nat x0)
    by (apply list_lookup_insert_eq; rewrite Hlen; lia).
  rewrite bind_Ok, (get_col_ok _ _ _ HU), bind_Ok.
  unfold euler_step. rewrite (xdot_shape_mismatch x0 u Hbad). reflexivity.
Qed.

Lemma integrateOpenLoop_shape_mismatch_witness :
  integrateOpenLoop junk_col [1; 2; 3] [[0]; [0]] 2 dt = Raise ValueError.
Proof.
  apply (integrateOpenLoop_shape_mismatch junk_col [1; 2; 3] [0] [[0]; [0]] 2 dt).
  - lia.
  - reflexivity.
  - left. simpl. lia.
Defined.

(** X6: the origin is an equilibrium: from the zero state under zero
    controls every column of the trajectory is zero. *)
Theorem integrateOpenLoop_rest
    (junk : nat -> vec) (m steps : nat) (h : R) :
  (steps <= m)%nat ->
  integrateOpenLoop junk [0; 0; 0; 0] (replicate m [0]) steps h
  = Ok (replicate (steps + 1) [0; 0; 0; 0]).
Proof.
  intros Hm. rewrite integrateOpenLoop_traj.
  - f_equal. revert m Hm. induction steps as [|n IH]; intros m Hm.
    + destruct m; reflexivity.
    + destruct m as [|m]; [lia|]. cbn [replicate euler_traj Nat.add]. f_equal.
      assert (euler [0; 0; 0; 0] [0] h = [0; 0; 0; 0]) as ->.
      { unfold euler, A, B, Plant.m, Plant.g, Plant.M, Plant.l.
        cbn -[Rplus Rmult Rdiv Ropp]. repeat (f_equal; try lra). }
      apply IH. lia.
  - reflexivity.
  - apply Forall_replicate. reflexivity.
  - rewrite length_replicate. exact Hm.
Qed.

Lemma integrateOpenLoop_rest_witness :
  integrateOpenLoop junk_col [0; 0; 0; 0] (replicate 3 [0]) 2 dt
  = Ok (replicate (2 + 1) [0; 0; 0; 0]).
Proof. apply (integrateOpenLoop_rest junk_col 3 2 dt). lia. Defined.

(** ** integrateClosedLoop *)

Lemma euler_step_inv (x u xn : vec) (h : R) :
  euler_step x u h = Ok xn ->
  length x = 4%nat /\ length u = 1%nat /\ xn = euler x u h.
Proof.
  intros H.
  destruct (Nat.eq_dec (length x) 4%nat) as [Hx|Hx];
    [destruct (Nat.eq_dec (length u) 1%nat) as [Hu|Hu]|].
  - rewrite (euler_step_ok x u h Hx Hu) in H. inversion H. auto.
  - unfold euler_step in H.
    rewrite (xdot_shape_mismatch x u (or_intror Hu)) in H. discriminate H.
  - unfold euler_step in H.
    rewrite (xdot_shape_mismatch x u (or_introl Hx)) in H. discriminate H.
Qed.

Lemma set_col_inv (nrows : nat) (X X' : list vec) (t : nat) (v : vec) :
  length v = nrows -> set_col nrows X t v = Ok X' ->
  (t < length X)%nat /\ X' = <[t := v]> X.
Proof.
  intros Hv. unfold set_col.
  destruct (Nat.ltb t (length X)) eqn:E; cbn [negb]; [|discriminate].
  apply Nat.ltb_lt in E. rewrite Hv, Nat.eqb_refl.
  intros H. inversion H. auto.
Qed.

Section ClosedLoop.
Variable control : mat -> nat -> vec -> result vec.
Variable x0 : vec.
Variable K : mat.
Variable h : R.
Hypothesis K_one_row : length K = 1%nat.

(** What a successful iteration did. *)
Lemma cl_body_inv (t : nat) (f f' : cl_frame) :
  cl_body control x0 K h t f = Ok f' ->
  exists x u,
    cf_X f !! t = Some x /\ control K t x = Ok u /\
    length x = 4%nat /\ length u = 1%nat /\ length x0 = 4%nat /\
    (t + 1 < length (cf_X f))%nat /\ (t < length (cf_U f))%nat /\
    cf_X f' = <[(t + 1)%nat := euler x u h]> (cf_X f) /\
    cf_U f' = <[t := u]> (cf_U f).
Proof.
  intros H. unfold cl_body in H.
  inv_bind H. rename v into x. unfold get_col in E.
  destruct (cf_X f !! t) as [x'|] eqn:EX; [|discriminate E].
  inversion E; subst x'; clear E.
  inv_bind H. rename v into u, E into Ec.
  inv_bind H. apply euler_step_inv in E as (Hx & Hu & ->).
  inv_bind H.
  apply (set_col_inv4 _ _ _ _ _ (euler_length x u h Hx)) in E as (LX & E0 & ->).
  inv_bind H. rewrite K_one_row in E.
  apply (set_col_inv _ _ _ _ _ Hu) in E as (LU & ->).
  inversion H; subst f'; clear H. cbn [cf_X cf_U].
  exists x, u. repeat split; assumption.
Qed.

Lemma cl_loop_inv (n : nat) :
  forall (start : nat) (f f' : cl_frame),
    for_range (cl_body control x0 K h) start n f = Ok f' ->
    length (cf_X f') = length (cf_X f) /\
    length (cf_U f') = length (cf_U f) /\
    (forall i, (i <= start)%nat -> cf_X f' !! i = cf_X f !! i) /\
    (forall i, (i < start)%nat -> cf_U f' !! i = cf_U f !! i) /\
    ((0 < n)%nat -> length x0 = 4%nat) /\
    (forall t, (start <= t < start + n)%nat ->
       exists x u, cf_X f' !! t = Some x /\ cf_U f' !! t = Some u /\
                   control K t x = Ok u /\ length u = 1%nat /\
                   cf_X f' !! (t + 1)%nat = Some (euler x u h) /\
                   length x = 4%nat).
Proof.
  induction n as [|n IH]; intros start f f' Hrun.
  - cbn [for_range] in Hrun. inversion Hrun; subst f'.
    repeat split; try reflexivity; intros; lia.
  - cbn [for_range] in Hrun. inv_bind Hrun. rename v into f1.
    apply cl_body_inv in E.
    destruct E as (x & u & EX & Ec & Hx & Hu & H0 & LX & LU & EX1 & EU1).
    destruct (IH (S start) f1 f' Hrun) as (L1 & L2 & HlowX & HlowU & _ & Hhigh).
    split; [rewrite L1, EX1; apply length_insert|].
    split; [rewrite L2, EU1; apply length_insert|].
    assert (forall i, (i <= start)%nat -> cf_X f' !! i = cf_X f !! i) as HkeepX.
    { intros i Hi. rewrite HlowX by lia. rewrite EX1.
      apply list_lookup_insert_ne. lia. }
    split; [exact HkeepX|].
    split.
    { intros i Hi. rewrite HlowU by lia. rewrite EU1.
      apply list_lookup_insert_ne. lia. }
    split; [intros _; exact H0|].
    intros t Ht. destruct (Nat.eq_dec t start) as [->|Hne].
    + exists x, u. split; [rewrite HkeepX by lia; exact EX|].
      split; [rewrite HlowU by lia; rewrite EU1;
              apply list_lookup_insert_eq; exact LU|].
      split; [exact Ec|]. split; [exact Hu|]. split; [|exact Hx].
      replace (start + 1)%nat with (S start) by lia.
      rewrite HlowX by lia. rewrite EX1.
      replace (S start) with (start + 1)%nat by lia.
      apply list_lookup_insert_eq. exact LX.
    + apply Hhigh. lia.
Qed.

(** Progress of the loop when the control expression returns a control of
    one entry on every state of four entries. *)
Lemma cl_loop_run (n : nat) :
  (forall t x, length x = 4%nat ->
     exists u, control K t x = Ok u /\ length u = 1%nat) ->
  length x0 = 4%nat ->
  forall (start : nat) (f : cl_frame) (xs : vec),
    (start + n < length (cf_X f))%nat -> (start + n <= length (cf_U f))%nat ->
    cf_X f !! start = Some xs -> length xs = 4%nat ->
    exists f', for_range (cl_body control x0 K h) start n f = Ok f'.
Proof.
  intros Hc H0. induction n as [|n IH]; intros start f xs LX LU Hxs Hlen.
  - exists f. reflexivity.
  - destruct (Hc start xs Hlen) as (u & Ec & Hu).
    cbn [for_range].
    assert (cl_body control x0 K h start f
            = Ok (ClFrame (<[(start + 1)%nat := euler xs u h]> (cf_X f))
                          (<[start := u]> (cf_U f)))) as ->.
    { unfold cl_body.
      rewrite (get_col_ok _ _ _ Hxs), bind_Ok, Ec, bind_Ok.
      rewrite (euler_step_ok xs u h Hlen Hu), bind_Ok.
      rewrite (set_col_ok (length x0) (cf_X f) (start + 1) (euler xs u h));
        [|lia|rewrite H0; apply euler_length; exact Hlen].
      rewrite bind_Ok, (set_col_ok (length K) (cf_U f) start u);
        [|lia|rewrite K_one_row; exact Hu].
      reflexivity. }
    rewrite bind_Ok.
    apply (IH (S start) _ (euler xs u h)); cbn [cf_X cf_U].
    + rewrite length_insert. lia.
    + rewrite length_insert. lia.
    + replace (S start) with (start + 1)%nat by lia.
      apply list_lookup_insert_eq. lia.
    + apply euler_length. exact Hlen.
Qed.
End ClosedLoop.

(** X7: when integrateClosedLoop returns (gain of one row), the controls
    it recorded are the ones its control expression gave at the recorded
    states, and integrateOpenLoop replayed on the recorded controls returns
    the same trajectory. *)
Theorem integrateClosedLoop_replay
    (control : mat -> nat -> vec -> result vec) (jX jU junk : nat -> vec)
    (x0 : vec) (K : mat) (steps : nat) (h : R) (X U : list vec) :
  length K = 1%nat ->
  integrateClosedLoop control jX jU x0 K steps h = Ok (X, U) ->
  length X = (steps + 1)%nat /\ length U = steps /\
  (forall t, (t < steps)%nat ->
     exists x u, X !! t = Some x /\ U !! t = Some u /\ control K t x = Ok u) /\
  integrateOpenLoop junk x0 U steps h = Ok X.
Proof.
  intros HK H. unfold integrateClosedLoop in H.
  pose proof (np_empty_length jX (steps + 1)) as LX0.
  pose proof (np_empty_length jU steps) as LU0.
  rewrite set_col_ok in H; [|rewrite LX0; lia|reflexivity]. rewrite bind_Ok in H.
  inv_bind H. rename v into f. inversion H; subst X U; clear H.
  destruct (cl_loop_inv control x0 K h HK steps 0%nat _ f E)
    as (L1 & L2 & HlowX & _ & H0 & Hall); cbn [cf_X cf_U] in *.
  rewrite length_insert, LX0 in L1. rewrite LU0 in L2.
  assert (cf_X f !! 0%nat = Some x0) as Hfirst.
  { rewrite HlowX by lia. apply list_lookup_insert_eq. rewrite LX0. lia. }
  split; [exact L1|]. split; [exact L2|]. split.
  - intros t Ht. destruct (Hall t ltac:(lia)) as (x & u & K1 & K2 & K3 & _).
    exists x, u. auto.
  - destruct steps as [|n].
    + destruct (cf_X f) as [|c [|c' X]]; try discriminate L1.
      destruct (cf_U f); [|discriminate L2].
      cbn in Hfirst. inversion Hfirst; subst c.
      unfold integrateOpenLoop, integrateOpenLoop_frame, set_col. cbn [np_empty seq map length Nat.ltb Nat.leb negb Nat.add].
      rewrite Nat.eqb_refl. reflexivity.
    + rewrite integrateOpenLoop_traj.
      * f_equal. symmetry. apply euler_traj_unique; [lia|exact Hfirst|].
        intros t Ht. destruct (Hall t ltac:(lia)) as (x & u & K1 & K2 & _ & _ & K5 & _).
        exists x, u. auto.
      * apply H0. lia.
      * apply Forall_lookup. intros t u Hu.
        assert (t < S n)%nat as Ht
          by (rewrite <- L2; eapply lookup_lt_Some; exact Hu).
        destruct (Hall t ltac:(lia)) as (x & u' & _ & K2 & _ & K4 & _).
        pose proof (eq_trans (eq_sym Hu) K2) as Heq.
        inversion Heq; subst u'. exact K4.
      * lia.
Qed.

Lemma integrateClosedLoop_replay_witness :
  exists X U,
    integrateClosedLoop lqr_law junk_col junk_col x0_mpc [[1; 2; 3; 4]] 2 dt = Ok (X, U) /\
    length X = (2 + 1)%nat /\ length U = 2%nat /\
    (forall t, (t < 2)%nat ->
       exists x u, X !! t = Some x /\ U !! t = Some u /\
                   lqr_law [[1; 2; 3; 4]] t x = Ok u) /\
    integrateOpenLoop junk_col x0_mpc U 2 dt = Ok X.
Proof.
  eexists. eexists. split; [vm_compute; reflexivity|].
  apply (integrateClosedLoop_replay lqr_law junk_col junk_col junk_col
           x0_mpc [[1; 2; 3; 4]] 2 dt).
  - reflexivity.
  - vm_compute. reflexivity.
Defined.

(** X8: integrateClosedLoop returns whenever the state has four entries,
    the gain has one row and the control expression returns a control of
    one entry on every state of four entries. *)
Theorem integrateClosedLoop_returns
    (control : mat -> nat -> vec -> result vec) (jX jU : nat -> vec)
    (x0 : vec) (K : mat) (steps : nat) (h : R) :
  length x0 = 4%nat -> length K = 1%nat ->
  (forall t x, length x = 4%nat ->
     exists u, control K t x = Ok u /\ length u = 1%nat) ->
  exists X U, integrateClosedLoop control jX jU x0 K steps h = Ok (X, U).
Proof.
  intros H0 HK Hc. unfold integrateClosedLoop.
  pose proof (np_empty_length jX (steps + 1)) as LX0.
  pose proof (np_empty_length jU steps) as LU0.
  rewrite set_col_ok; [|rewrite LX0; lia|reflexivity]. rewrite bind_Ok.
  destruct (cl_loop_run control x0 K h HK steps Hc H0 0%nat
              (ClFrame (<[0%nat := x0]> (np_empty jX (steps + 1))) (np_empty jU steps)) x0)
    as [f Hrun]; cbn [cf_X cf_U].
  - rewrite length_insert, LX0. lia.
  - rewrite LU0. lia.
  - apply list_lookup_insert_eq. rewrite LX0. lia.
  - exact H0.
  - rewrite Hrun, bind_Ok. eauto.
Qed.

Lemma lqr_law_shape (K : mat) (t : nat) (x : vec) :
  Forall (fun row => length row = 4%nat) K -> length K = 1%nat -> length x = 4%nat ->
  exists u, lqr_law K t x = Ok u /\ length u = 1%nat.
Proof.
  intros HK H1 Hx. unfold lqr_law. eexists. split.
  - apply np_dot_ok. apply Forall_map.
    eapply Forall_impl; [exact HK|]. intros row Hr. cbn.
    rewrite length_map. congruence.
  - rewrite mat_vec_length, length_map. exact H1.
Qed.

Lemma integrateClosedLoop_returns_witness :
  exists X U,
    integrateClosedLoop lqr_law junk_col junk_col x0_mpc [[1; 2; 3; 4]] 2 dt = Ok (X, U).
Proof.
  apply (integrateClosedLoop_returns lqr_law junk_col junk_col
           x0_mpc [[1; 2; 3; 4]] 2 dt).
  - reflexivity.
  - reflexivity.
  - intros t x Hx. apply lqr_law_shape; [repeat constructor|reflexivity|exact Hx].
Defined.

(** ** Loops that fill an array *)

Lemma bind_assoc {T1 T2 T3 : Type} (m : result T1)
    (f : T1 -> result T2) (g : T2 -> result T3) :
  mbind g (mbind f m) = mbind (fun a => mbind g (f a)) m.
Proof. destruct m; reflexivity. Qed.

Lemma for_range_ext {St : Type} (body1 body2 : nat -> St -> result St) :
  (forall t st, body1 t st = body2 t st) ->
  forall n start st, for_range body1 start n st = for_range body2 start n st.
Proof.
  intros H. induction n as [|n IH]; intros start st; [reflexivity|].
  cbn [for_range]. rewrite H. destruct (body2 start st); [|reflexivity].
  rewrite !bind_Ok. apply IH.
Qed.

(** A loop whose iteration [t] stores [g t] at index [t]. *)
Lemma fill_loop {T : Type} (g : nat -> result T) (n : nat) :
  forall (start : nat) (q : list T),
    (start + n <= length q)%nat ->
    (forall t, (start <= t < start + n)%nat -> exists c, g t = Ok c) ->
    exists q',
      for_range (fun t a => mbind (set_item a t) (g t)) start n q = Ok q' /\
      length q' = length q /\
      (forall i, (i < start)%nat -> q' !! i = q !! i) /\
      (forall t, (start <= t < start + n)%nat ->
         exists c, g t = Ok c /\ q' !! t = Some c).
Proof.
  induction n as [|n IH]; intros start q Hlen Hg.
  - exists q. cbn [for_range]. repeat split; try reflexivity. intros; lia.
  - destruct (Hg start ltac:(lia)) as [c Hc].
    cbn [for_range]. rewrite Hc, bind_Ok, set_item_ok by lia. rewrite bind_Ok.
    destruct (IH (S start) (<[start := c]> q)) as (q' & Hrun & HL & Hlow & Hhigh).
    + rewrite length_insert. lia.
    + intros t Ht. apply Hg. lia.
    + exists q'. split; [exact Hrun|].
      split; [rewrite HL; apply length_insert|].
      split; [intros i Hi; rewrite Hlow by lia; apply list_lookup_insert_ne; lia|].
      intros t Ht. destruct (Nat.eq_dec t start) as [->|Hne].
      * exists c. split; [exact Hc|]. rewrite Hlow by lia.
        apply list_lookup_insert_eq. lia.
      * apply Hhigh. lia.
Qed.

(** The first iteration whose value raises stops the loop with that
    exception. *)
Lemma fill_loop_raises {T : Type} (g : nat -> result T) (e : exn) (n k : nat) :
  forall (start : nat) (q : list T),
    (start + n <= length q)%nat -> (start <= k < start + n)%nat ->
    (forall t, (start <= t < k)%nat -> exists c, g t = Ok c) ->
    g k = Raise e ->
    for_range (fun t a => mbind (set_item a t) (g t)) start n q = Raise e.
Proof.
  revert k. induction n as [|n IH]; intros k start q Hlen Hk Hg He; [lia|].
  cbn [for_range]. destruct (Nat.eq_dec k start) as [->|Hne].
  - rewrite He. reflexivity.
  - destruct (Hg start ltac:(lia)) as [c Hc].
    rewrite Hc, bind_Ok, set_item_ok by lia. rewrite bind_Ok.
    apply (IH k); [rewrite length_insert; lia|lia| |exact He].
    intros t Ht. apply Hg. lia.
Qed.

(** ** Stage cost along a trajectory *)

Lemma stage_cost_nonneg (x u : vec) :
  length x = 4%nat -> length u = 1%nat ->
  exists c, stage_cost x u = Ok c /\ 0 <= c.
Proof.
  intros Hx Hu.
  destruct x as [|a [|b [|c [|d [|? ?]]]]]; try discriminate Hx.
  destruct u as [|e [|? ?]]; try discriminate Hu.
  eexists. split; [apply stage_cost_value|].
  rewrite stage_cost_expand.
  pose proof (Rle_0_sqr a). pose proof (Rle_0_sqr b). pose proof (Rle_0_sqr c).
  pose proof (Rle_0_sqr d). pose proof (Rle_0_sqr e). unfold Rsqr in *. lra.
Qed.

Lemma stage_cost_trace_fill (junk : nat -> R) (X U : list vec) (steps : nat) :
  stage_cost_trace junk X U steps =
  for_range (fun t a => mbind (set_item a t) (stage_cost_at X U t)) 0 steps
            (np_empty junk steps).
Proof.
  unfold stage_cost_trace. apply for_range_ext. intros t q.
  unfold stage_cost_body, stage_cost_at.
  destruct (get_col X t); [|reflexivity]. rewrite !bind_Ok.
  destruct (get_col U t); [|reflexivity]. rewrite !bind_Ok. reflexivity.
Qed.




(** X10: when the trajectory has fewer columns than steps (and enough
    controls), the stage-cost loop raises IndexError at the first step
    without a state. *)
Theorem stage_cost_trace_short (junk : nat -> R) (X U : list vec) (steps : nat) :
  (length X < steps)%nat -> (length X <= length U)%nat ->
  Forall (fun x => length x = 4%nat) X ->
  Forall (fun u => length u = 1%nat) (take (length X) U) ->
  stage_cost_trace junk X U steps = Raise IndexError.
Proof.
  intros LX LU HX HU. rewrite stage_cost_trace_fill.
  apply (fill_loop_raises (stage_cost_at X U) IndexError steps (length X)).
  - rewrite np_empty_length. lia.
  - lia.
  - intros t Ht.
    destruct (lookup_lt_is_Some_2 X t) as [x Hx]; [lia|].
    destruct (lookup_lt_is_Some_2 U t) as [u Hu]; [lia|].
    assert (length x = 4%nat) as Hx4
      by (rewrite Forall_lookup in HX; apply (HX t); exact Hx).
    assert (length u = 1%nat) as Hu1.
    { rewrite Forall_lookup in HU. apply (HU t).
      rewrite lookup_take_lt by lia. exact Hu. }
    destruct (stage_cost_nonneg x u Hx4 Hu1) as (c & Hc & _).
    exists c. unfold stage_cost_at.
    rewrite (get_col_ok _ _ _ Hx), bind_Ok, (get_col_ok _ _ _ Hu), bind_Ok. exact Hc.
  - unfold stage_cost_at, get_col.
    rewrite (lookup_ge_None_2 X (length X)) by lia. reflexivity.
Qed.

Lemma stage_cost_trace_short_witness :
  stage_cost_trace (fun _ => 7) [x0_mpc] [[1]; [2]] 2 = Raise IndexError.
Proof.
  apply (stage_cost_trace_short (fun _ => 7) [x0_mpc] [[1]; [2]] 2).
  - simpl. lia.
  - simpl. lia.
  - repeat constructor.
  - repeat constructor.
Defined.



(** ** The three MPC loops *)

Lemma plant_step_bad_control (x u : vec) :
  length x = 4%nat -> length u <> 1%nat -> plant_step x u = Raise ValueError.
Proof.
  intros Hx Hu. unfold plant_step.
  rewrite (np_dot_ok Ad x) by (eapply rows_at; [apply rows_Ad|exact Hx]).
  rewrite bind_Ok.
  assert (np_dot Bd u = Raise ValueError) as ->; [|reflexivity].
  unfold np_dot, Bd, B, mscale, vscale. cbn [map forallb length].
  destruct (Nat.eqb_spec 1%nat (length u)) as [E|E]; [congruence|reflexivity].
Qed.

Lemma plant_step_state_length (x u y : vec) :
  plant_step x u = Ok y -> length x = 4%nat.
Proof.
  intros H. destruct (Nat.eq_dec (length x) 4%nat) as [Hx|Hx]; [exact Hx|].
  unfold plant_step in H.
  assert (np_dot Ad x = Raise ValueError) as E.
  { unfold np_dot, Ad, A, dim_x, madd, mscale, vscale, vadd, np_eye.
    cbn [map seq zip_with forallb length].
    destruct (Nat.eqb_spec 4%nat (length x)) as [E|E]; [congruence|reflexivity]. }
  rewrite E in H. discriminate H.
Qed.

Section FirstLoop.
Context {Mem : Type}.
Variable solve : solver Mem.

(** An iteration of the first loop does what an iteration of the
    input-constrained loop does, except for the write to [Utraj]. *)
Lemma mpc_body_first_constrained (nrows t : nat) (s1 s2 : nb_state Mem) :
  forget_Utraj s1 = forget_Utraj s2 -> (t < length (st_Utraj s1))%nat ->
  result_rel (fun a b => forget_Utraj a = forget_Utraj b /\
                         length (st_Utraj a) = length (st_Utraj s1))
             (mpc_body_constrained solve nrows t s1)
             (mpc_body_first solve nrows t s2).
Proof.
  intros Hst Ht. destruct s1 as [p1 xi1 U1 m1 x1 X1 Ut1 J1].
  destruct s2 as [p2 xi2 U2 m2 x2 X2 Ut2 J2].
  unfold forget_Utraj in Hst. cbn in Hst. inversion Hst; subst; clear Hst.
  cbn [st_Utraj] in Ht.
  unfold mpc_body_constrained, mpc_body_first, set_x_init. cbn [st_x].
  destruct (Nat.eqb_spec (length x2) dim_x) as [Hx|Hx]; [rewrite !bind_Ok|reflexivity].
  unfold call_solve. cbn [st_x_init st_solver st_mpc].
  destruct (solve m2 p2 x2 true) as [sol mem|]; [rewrite !bind_Ok|reflexivity].
  cbn [fst snd st_Jtraj st_Xtraj st_x st_Utraj st_mpc st_x_init st_U st_solver].
  destruct (set_item J2 t (sol_value sol)) as [J'|e]; [rewrite !bind_Ok|reflexivity].
  destruct (set_col nrows X2 t x2) as [X'|e]; [rewrite !bind_Ok|reflexivity].
  unfold first_move. cbn [st_U].
  destruct (sol_U sol) as [Uv|].
  - destruct (Uv !! 0%nat) as [u0|]; [rewrite !bind_Ok|reflexivity].
    destruct u0 as [|a [|b u0]]; cbn [scalar_of].
    + rewrite bind_Raise. cbn [apply_move].
      rewrite plant_step_bad_control by (try exact Hx; cbn; lia). reflexivity.
    + rewrite ?bind_Ok. rewrite (set_item_ok Ut1 t (Finite a) Ht). rewrite ?bind_Ok.
      destruct (apply_move _ _) as [x'|e];
        [rewrite ?bind_Ok|rewrite ?bind_Raise; reflexivity].
      cbn [result_rel forget_Utraj st_mpc st_x_init st_U st_solver st_x st_Xtraj
           st_Utraj st_Jtraj].
      split; [reflexivity|apply length_insert].
    + rewrite bind_Raise. cbn [apply_move].
      rewrite plant_step_bad_control by (try exact Hx; cbn; lia). reflexivity.
  - rewrite !bind_Ok. cbn [scalar_of].
    rewrite ?bind_Ok. rewrite (set_item_ok Ut1 t NaN Ht). rewrite ?bind_Ok.
    cbn [apply_move]. rewrite ?bind_Raise. reflexivity.
Qed.
End FirstLoop.

Lemma mpc_loop_first_constrained_rel {Mem : Type} (solve : solver Mem)
    (jX : nat -> vec) (jU jJ : nat -> xfloat)
    (p : Problem) (mem : Mem) (x0 : vec) (steps : nat) :
  result_rel (fun a b => forget_Utraj a = forget_Utraj b)
             (mpc_loop_constrained solve jX jU jJ p mem x0 steps)
             (mpc_loop_first solve jX jU jJ p mem x0 steps).
Proof.
  unfold mpc_loop_constrained, mpc_loop_first.
  pose proof (for_range_sim_ix
                (fun (_ : nat) (a b : nb_state Mem) =>
                   forget_Utraj a = forget_Utraj b /\ length (st_Utraj a) = steps)
                (mpc_body_constrained solve (length x0))
                (mpc_body_first solve (length x0)) steps) as Hsim.
  eapply result_rel_impl; [|apply (Hsim)].
  - intros a b [H _]. exact H.
  - intros t s1 s2 Ht [Hst HL].
    eapply result_rel_impl;
      [|apply (mpc_body_first_constrained solve (length x0) t s1 s2 Hst); lia].
    intros a b [H1 H2]. split; [exact H1|]. rewrite H2. exact HL.
  - cbn [Nat.add]. apply Nat.le_refl.
  - split; [reflexivity|]. apply loop_init_lengths.
Qed.

(** X12: the first loop and the input-constrained loop are the same loop
    up to [Utraj]: with the same solver, problem and start they raise the
    same exception or return the same globals, [Utraj] apart. *)
Theorem mpc_loop_first_is_constrained {Mem : Type} (solve : solver Mem)
    (jX : nat -> vec) (jU jJ : nat -> xfloat)
    (p : Problem) (mem : Mem) (x0 : vec) (steps : nat) :
  map_result forget_Utraj (mpc_loop_first solve jX jU jJ p mem x0 steps)
  = map_result forget_Utraj (mpc_loop_constrained solve jX jU jJ p mem x0 steps).
Proof.
  symmetry. apply result_rel_map. apply mpc_loop_first_constrained_rel.
Qed.

Section LoopJunk.
Context {Mem : Type}.
Variable solve : solver Mem.

Lemma mpc_body_constrained_agree (nrows L t : nat) (s1 s2 : nb_state Mem) :
  nb_agree L t s1 s2 ->
  result_rel (nb_agree L (S t))
             (mpc_body_constrained solve nrows t s1)
             (mpc_body_constrained solve nrows t s2).
Proof.
  destruct s1 as [p1 xi1 U1 m1 x1 X1 Ut1 J1].
  destruct s2 as [p2 xi2 U2 m2 x2 X2 Ut2 J2].
  intros (E1 & E2 & E3 & E4 & E5 & (LX1 & LX2 & HX) & (LU1 & LU2 & HUt) & (LJ1 & LJ2 & HJ)).
  cbn in E1, E2, E3, E4, E5, LX1, LX2, HX, LU1, LU2, HUt, LJ1, LJ2, HJ.
  subst p1 xi1 U1 m1 x1.
  unfold mpc_body_constrained, set_x_init. cbn [st_x].
  destruct (Nat.eqb (length x2) dim_x); [rewrite !bind_Ok|rewrite ?bind_Raise; reflexivity].
  unfold call_solve. cbn [st_x_init st_solver st_mpc].
  destruct (solve m2 p2 x2 true) as [sol mem|]; [rewrite !bind_Ok|rewrite ?bind_Raise; reflexivity].
  cbn [fst snd st_Jtraj st_Xtraj st_x st_Utraj st_mpc st_x_init st_U st_solver].
  eapply result_rel_bind;
    [apply (set_item_agree J1 J2 t (sol_value sol) L t); auto|].
  intros J1' J2' (KJ1 & KJ2 & KJ).
  eapply result_rel_bind;
    [apply (set_col_agree nrows X1 X2 t x2 L t); auto|].
  intros X1' X2' (KX1 & KX2 & KX).
  assert (exists r, forall Xa Ua Ja,
            first_move (MkState p2 (Some x2) (sol_U sol) mem x2 Xa Ua Ja) = r) as [r Hr]
    by (exists (first_move (MkState p2 (Some x2) (sol_U sol) mem x2 [] [] []));
        intros; reflexivity).
  rewrite !Hr. destruct r as [u|e]; [rewrite !bind_Ok|rewrite ?bind_Raise; reflexivity].
  destruct (scalar_of u) as [uv|e]; [rewrite !bind_Ok|rewrite ?bind_Raise; reflexivity].
  eapply result_rel_bind;
    [apply (set_item_agree Ut1 Ut2 t uv L t); auto|].
  intros Ut1' Ut2' (KU1 & KU2 & KU). rewrite !bind_Ok.
  destruct (apply_move x2 u) as [x'|e]; [rewrite !bind_Ok|rewrite ?bind_Raise; reflexivity].
  cbn [result_rel]. unfold nb_agree.
  cbn [st_Jtraj st_Xtraj st_x st_Utraj st_mpc st_x_init st_U st_solver].
  repeat split; try assumption; try reflexivity; intros i Hi;
    [apply KX|apply KU|apply KJ]; lia.
Qed.

Lemma mpc_body_terminal_agree (nrows L t : nat) (s1 s2 : nb_state Mem) :
  nb_agree L t s1 s2 ->
  result_rel (nb_agree L (S t))
             (mpc_body_terminal solve nrows t s1)
             (mpc_body_terminal solve nrows t s2).
Proof.
  destruct s1 as [p1 xi1 U1 m1 x1 X1 Ut1 J1].
  destruct s2 as [p2 xi2 U2 m2 x2 X2 Ut2 J2].
  intros (E1 & E2 & E3 & E4 & E5 & (LX1 & LX2 & HX) & (LU1 & LU2 & HUt) & (LJ1 & LJ2 & HJ)).
  cbn in E1, E2, E3, E4, E5, LX1, LX2, HX, LU1, LU2, HUt, LJ1, LJ2, HJ.
  subst p1 xi1 U1 m1 x1.
  unfold mpc_body_terminal. cbn [st_x st_Xtraj].
  eapply result_rel_bind;
    [apply (set_col_agree nrows X1 X2 t x2 L t); auto|].
  intros X1' X2' (KX1 & KX2 & KX).
  unfold set_x_init. cbn [st_x].
  destruct (Nat.eqb (length x2) dim_x); [rewrite !bind_Ok|rewrite ?bind_Raise; reflexivity].
  unfold call_solve. cbn [st_x_init st_solver st_mpc].
  destruct (solve m2 p2 x2 false) as [sol mem|]; [rewrite !bind_Ok|rewrite ?bind_Raise; reflexivity].
  cbn [fst snd st_Jtraj st_Xtraj st_x st_Utraj st_mpc st_x_init st_U st_solver].
  eapply result_rel_bind;
    [apply (set_item_agree J1 J2 t (sol_value sol) L t); auto|].
  intros J1' J2' (KJ1 & KJ2 & KJ).
  assert (exists r, forall Xa Ua Ja,
            first_move (MkState p2 (Some x2) (sol_U sol) mem x2 Xa Ua Ja) = r) as [r Hr]
    by (exists (first_move (MkState p2 (Some x2) (sol_U sol) mem x2 [] [] []));
        intros; reflexivity).
  rewrite !Hr. destruct r as [u|e]; [rewrite !bind_Ok|rewrite ?bind_Raise; reflexivity].
  destruct (apply_move x2 u) as [x'|e]; [rewrite !bind_Ok|rewrite ?bind_Raise; reflexivity].
  destruct (scalar_of u) as [uv|e]; [rewrite !bind_Ok|rewrite ?bind_Raise; reflexivity].
  eapply result_rel_bind;
    [apply (set_item_agree Ut1 Ut2 t uv L t); auto|].
  intros Ut1' Ut2' (KU1 & KU2 & KU).
  cbn [result_rel]. unfold nb_agree.
  cbn [st_Jtraj st_Xtraj st_x st_Utraj st_mpc st_x_init st_U st_solver].
  repeat split; try assumption; try reflexivity; intros i Hi;
    [apply KX|apply KU|apply KJ]; lia.
Qed.

Lemma nb_agree_init (jX jX' : nat -> vec) (jU jU' jJ jJ' : nat -> xfloat)
    (p : Problem) (mem : Mem) (x0 : vec) (steps : nat) :
  nb_agree steps 0 (loop_init jX jU jJ p mem x0 steps)
                   (loop_init jX' jU' jJ' p mem x0 steps).
Proof.
  unfold nb_agree, loop_init.
  cbn [st_Jtraj st_Xtraj st_x st_Utraj st_mpc st_x_init st_U st_solver].
  rewrite !np_empty_length. repeat split; try reflexivity; intros i Hi; lia.
Qed.

Lemma nb_agree_full (L : nat) (a b : nb_state Mem) :
  nb_agree L L a b -> a = b.
Proof.
  destruct a as [p1 xi1 U1 m1 x1 X1 Ut1 J1].
  destruct b as [p2 xi2 U2 m2 x2 X2 Ut2 J2].
  intros (E1 & E2 & E3 & E4 & E5 & (LX1 & LX2 & HX) & (LU1 & LU2 & HUt) & (LJ1 & LJ2 & HJ)).
  cbn in E1, E2, E3, E4, E5, LX1, LX2, HX, LU1, LU2, HUt, LJ1, LJ2, HJ.
  subst p1 xi1 U1 m1 x1.
  rewrite (list_eq_upto X1 X2 L LX1 LX2 HX).
  rewrite (list_eq_upto Ut1 Ut2 L LU1 LU2 HUt).
  rewrite (list_eq_upto J1 J2 L LJ1 LJ2 HJ).
  reflexivity.
Qed.
End LoopJunk.

(** X13: what the input-constrained loop and the terminal-cost loop return
    (or raise) does not depend on the contents [np.empty] left in [Xtraj],
    [Utraj] and [Jtraj]. *)
Theorem mpc_loops_ignore_uninitialised {Mem : Type} (solve : solver Mem)
    (jX jX' : nat -> vec) (jU jU' jJ jJ' : nat -> xfloat)
    (p : Problem) (mem : Mem) (x0 : vec) (steps : nat) :
  mpc_loop_constrained solve jX jU jJ p mem x0 steps
    = mpc_loop_constrained solve jX' jU' jJ' p mem x0 steps /\
  mpc_loop_terminal solve jX jU jJ p mem x0 steps
    = mpc_loop_terminal solve jX' jU' jJ' p mem x0 steps.
Proof.
  split; apply result_rel_eq_inv.
  - unfold mpc_loop_constrained.
    eapply result_rel_impl; [apply nb_agree_full|].
    apply (for_range_sim_ix (nb_agree steps) _ _ steps
             (fun t s1 s2 _ => mpc_body_constrained_agree solve (length x0) steps t s1 s2)
             steps 0%nat); [lia|apply nb_agree_init].
  - unfold mpc_loop_terminal.
    eapply result_rel_impl; [apply nb_agree_full|].
    apply (for_range_sim_ix (nb_agree steps) _ _ steps
             (fun t s1 s2 _ => mpc_body_terminal_agree solve (length x0) steps t s1 s2)
             steps 0%nat); [lia|apply nb_agree_init].
Qed.

Lemma discrete_step_length (x u : vec) :
  length x = 4%nat -> length (discrete_step x u) = 4%nat.
Proof.
  intros Hx. unfold discrete_step. rewrite vadd_length; rewrite !mat_vec_length; reflexivity.
Qed.

Section LoopProgress.
Context {Mem : Type}.
Variable solve : solver Mem.
Hypothesis solve_total : solver_total solve.

Lemma mpc_run_constrained_progress (n : nat) :
  forall (start : nat) (st : nb_state Mem),
    length (st_x st) = 4%nat ->
    (start + n <= length (st_Xtraj st))%nat ->
    (start + n <= length (st_Utraj st))%nat ->
    (start + n <= length (st_Jtraj st))%nat ->
    exists st', for_range (mpc_body_constrained solve 4) start n st = Ok st' /\
                length (st_x st') = 4%nat.
Proof.
  induction n as [|n IH]; intros start st Hx LX LU LJ.
  - exists st. split; [reflexivity|exact Hx].
  - destruct (solve_total (st_solver st) (st_mpc st) (st_x st) true)
      as (sol & mem & Uv & a & Hs & HU & H0).
    cbn [for_range].
    rewrite (mpc_body_constrained_ok solve start st sol mem Uv a Hx Hs HU H0) by lia.
    rewrite bind_Ok. apply IH; cbn [st_x st_Xtraj st_Utraj st_Jtraj];
      rewrite ?length_insert; try lia.
    apply discrete_step_length. exact Hx.
Qed.

Lemma mpc_run_terminal_progress (n : nat) :
  forall (start : nat) (st : nb_state Mem),
    length (st_x st) = 4%nat ->
    (start + n <= length (st_Xtraj st))%nat ->
    (start + n <= length (st_Utraj st))%nat ->
    (start + n <= length (st_Jtraj st))%nat ->
    exists st', for_range (mpc_body_terminal solve 4) start n st = Ok st' /\
                length (st_x st') = 4%nat.
Proof.
  induction n as [|n IH]; intros start st Hx LX LU LJ.
  - exists st. split; [reflexivity|exact Hx].
  - destruct (solve_total (st_solver st) (st_mpc st) (st_x st) false)
      as (sol & mem & Uv & a & Hs & HU & H0).
    cbn [for_range].
    rewrite (mpc_body_terminal_ok solve start st sol mem Uv a Hx Hs HU H0) by lia.
    rewrite bind_Ok. apply IH; cbn [st_x st_Xtraj st_Utraj st_Jtraj];
      rewrite ?length_insert; try lia.
    apply discrete_step_length. exact Hx.
Qed.
End LoopProgress.

(** X14: with a solver that always returns and leaves a one-entry first
    column in [U], and a start state of four entries, the input-constrained
    loop and the terminal-cost loop return for any number of steps, with a
    final state of four entries. *)
Theorem mpc_loops_return {Mem : Type} (solve : solver Mem)
    (jX : nat -> vec) (jU jJ : nat -> xfloat)
    (p : Problem) (mem : Mem) (x0 : vec) (steps : nat) :
  solver_total solve -> length x0 = 4%nat ->
  (exists final, mpc_loop_constrained solve jX jU jJ p mem x0 steps = Ok final /\
                 length (st_x final) = 4%nat) /\
  (exists final, mpc_loop_terminal solve jX jU jJ p mem x0 steps = Ok final /\
                 length (st_x final) = 4%nat).
Proof.
  intros Htot H0.
  destruct (loop_init_lengths jX jU jJ p mem x0 steps) as (LX & LU & LJ).
  unfold mpc_loop_constrained, mpc_loop_terminal. rewrite H0. split.
  - apply (mpc_run_constrained_progress solve Htot); try lia. exact H0.
  - apply (mpc_run_terminal_progress solve Htot); try lia. exact H0.
Qed.

Lemma idle_solver_total : solver_total idle_solver.
Proof.
  intros mem p xi w.
  exists (MkSolution Solved (Finite 0) (Some [[0]])), tt, [[0]], 0.
  repeat split.
Qed.

Lemma mpc_loops_return_witness :
  (exists final, mpc_loop_constrained idle_solver junk_col junk_float junk_float
                   small_mpc tt x0_mpc 3 = Ok final /\
                 length (st_x final) = 4%nat) /\
  (exists final, mpc_loop_terminal idle_solver junk_col junk_float junk_float
                   small_mpc tt x0_mpc 3 = Ok final /\
                 length (st_x final) = 4%nat).
Proof.
  apply (mpc_loops_return idle_solver junk_col junk_float junk_float
           small_mpc tt x0_mpc 3).
  - exact idle_solver_total.
  - reflexivity.
Defined.

(** X15: started on a state that does not have four entries, each of the
    three MPC loops raises ValueError in its first iteration, whatever the
    solver. *)
Theorem mpc_loops_wrong_state_size {Mem : Type} (solve : solver Mem)
    (jX : nat -> vec) (jU jJ : nat -> xfloat)
    (p : Problem) (mem : Mem) (x0 : vec) (steps : nat) :
  length x0 <> 4%nat -> (1 <= steps)%nat ->
  mpc_loop_first solve jX jU jJ p mem x0 steps = Raise ValueError /\
  mpc_loop_terminal solve jX jU jJ p mem x0 steps = Raise ValueError /\
  mpc_loop_constrained solve jX jU jJ p mem x0 steps = Raise ValueError.
Proof.
  intros Hx Hs. destruct steps as [|n]; [lia|].
  assert (Nat.eqb (length x0) dim_x = false) as Hne
    by (apply Nat.eqb_neq; exact Hx).
  split; [|split].
  - unfold mpc_loop_first. cbn [for_range].
    assert (mpc_body_first solve (length x0) 0 (loop_init jX jU jJ p mem x0 (S n))
            = Raise ValueError) as ->; [|reflexivity].
    unfold mpc_body_first, set_x_init, loop_init. cbn [st_x]. rewrite Hne. reflexivity.
  - unfold mpc_loop_terminal. cbn [for_range].
    assert (mpc_body_terminal solve (length x0) 0 (loop_init jX jU jJ p mem x0 (S n))
            = Raise ValueError) as ->; [|reflexivity].
    unfold mpc_body_terminal, loop_init. cbn [st_x st_Xtraj].
    rewrite set_col_ok; [|rewrite np_empty_length; lia|reflexivity].
    rewrite bind_Ok. unfold set_x_init. cbn [st_x]. rewrite Hne. reflexivity.
  - unfold mpc_loop_constrained. cbn [for_range].
    assert (mpc_body_constrained solve (length x0) 0 (loop_init jX jU jJ p mem x0 (S n))
            = Raise ValueError) as ->; [|reflexivity].
    unfold mpc_body_constrained, set_x_init, loop_init. cbn [st_x]. rewrite Hne. reflexivity.
Qed.

Lemma mpc_loops_wrong_state_size_witness :
  mpc_loop_first idle_solver junk_col junk_float junk_float
                 small_mpc tt [1; 2; 3] 2 = Raise ValueError /\
  mpc_loop_terminal idle_solver junk_col junk_float junk_float
                    small_mpc tt [1; 2; 3] 2 = Raise ValueError /\
  mpc_loop_constrained idle_solver junk_col junk_float junk_float
                       small_mpc tt [1; 2; 3] 2 = Raise ValueError.
Proof.
  apply (mpc_loops_wrong_state_size idle_solver junk_col junk_float junk_float
           small_mpc tt [1; 2; 3] 2).
  - simpl. lia.
  - lia.
Defined.

(** ** The recorded trajectory of an MPC loop *)

(** A run of the input-constrained loop that returned, as a trajectory. *)
Lemma mpc_run_as_trajectory {Mem : Type} (solve : solver Mem)
    (jX : nat -> vec) (jU jJ : nat -> xfloat)
    (p : Problem) (mem : Mem) (x0 : vec) (steps : nat) (final : nb_state Mem) :
  mpc_loop_constrained solve jX jU jJ p mem x0 steps = Ok final ->
  length (st_Xtraj final) = steps /\ length (st_Utraj final) = steps /\
  (steps = 0%nat -> st_x final = x0) /\
  ((0 < steps)%nat -> st_Xtraj final !! 0%nat = Some x0 /\ length x0 = 4%nat) /\
  forall t, (t < steps)%nat ->
    exists xt a,
      st_Xtraj final !! t = Some xt /\ length xt = 4%nat /\
      st_Utraj final !! t = Some (Finite a) /\
      (st_Xtraj final ++ [st_x final]) !! (t + 1)%nat = Some (discrete_step xt [a]).
Proof.
  intros Hrun. unfold mpc_loop_constrained in Hrun.
  destruct (mpc_run_inv solve true _ (mpc_body_constrained_inv solve (length x0))
              steps 0%nat _ _ Hrun)
    as (_ & EX & EU & _ & _ & _ & Hz & Hfirst & Hall).
  destruct (loop_init_lengths jX jU jJ p mem x0 steps) as (LX & LU & _).
  rewrite LX in EX. rewrite LU in EU.
  assert (forall t, (t < steps)%nat ->
            exists xt a,
              st_Xtraj final !! t = Some xt /\ length xt = 4%nat /\
              st_Utraj final !! t = Some (Finite a) /\
              (st_Xtraj final ++ [st_x final]) !! (t + 1)%nat
                = Some (discrete_step xt [a])) as Hstep.
  { intros t Ht.
    destruct (Hall t ltac:(lia)) as (xt & a & J & K1 & K2 & _ & _ & K5 & K6).
    exists xt, a. split; [exact K1|].
    split; [eapply plant_step_state_length; exact K5|]. split; [exact K2|].
    unfold state_after in K6. cbn [Nat.add] in K6.
    destruct (Nat.ltb (t + 1) steps) eqn:E.
    - apply Nat.ltb_lt in E. rewrite lookup_app_l by lia. exact K6.
    - apply Nat.ltb_ge in E. rewrite lookup_app_r by lia.
      replace (t + 1 - length (st_Xtraj final))%nat with 0%nat by lia.
      exact K6. }
  split; [exact EX|]. split; [exact EU|].
  split; [intros ->; rewrite (Hz eq_refl); reflexivity|].
  split; [|exact Hstep].
  intros Hpos. split; [apply Hfirst; exact Hpos|].
  destruct (Hstep 0%nat Hpos) as (xt & a & K1 & K2 & _).
  pose proof (eq_trans (eq_sym (Hfirst Hpos)) K1) as Heq.
  cbn in Heq. inversion Heq. exact K2.
Qed.

(** ** Cost-to-go along an MPC trajectory *)

Lemma cost_to_go_ok (P : mat) (x : vec) :
  length P = 4%nat -> Forall (fun row => length row = 4%nat) P -> length x = 4%nat ->
  cost_to_go P x = Ok (quad_form x P).
Proof.
  intros HP HR Hx. unfold cost_to_go.
  rewrite (np_dot_ok P x) by (eapply rows_at; [exact HR|exact Hx]).
  rewrite bind_Ok. unfold np_dot11.
  rewrite mat_vec_length, HP, Hx. reflexivity.
Qed.

Lemma cost_to_go_trace_fill (junk : nat -> R) (P : mat) (Xtraj : list vec) (steps : nat) :
  cost_to_go_trace junk P Xtraj steps =
  for_range (fun t a => mbind (set_item a t) (cost_to_go_at P Xtraj t)) 0 steps
            (np_empty junk steps).
Proof.
  unfold cost_to_go_trace. apply for_range_ext. intros t q.
  unfold cost_to_go_body, cost_to_go_at.
  destruct (get_col Xtraj t); [|reflexivity]. rewrite !bind_Ok. reflexivity.
Qed.

Lemma cost_to_go_trace_ok (junk : nat -> R) (P : mat) (Xtraj : list vec) (steps : nat) :
  length P = 4%nat -> Forall (fun row => length row = 4%nat) P ->
  (steps <= length Xtraj)%nat ->
  Forall (fun x => length x = 4%nat) (take steps Xtraj) ->
  exists pv,
    cost_to_go_trace junk P Xtraj steps = Ok pv /\ length pv = steps /\
    forall t x, (t < steps)%nat -> Xtraj !! t = Some x ->
                pv !! t = Some (quad_form x P).
Proof.
  intros HP HR LX HX.
  assert (forall t, (t < steps)%nat ->
            exists x, Xtraj !! t = Some x /\
                      cost_to_go_at P Xtraj t = Ok (quad_form x P)) as Hstep.
  { intros t Ht. destruct (lookup_lt_is_Some_2 Xtraj t) as [x Hx]; [lia|].
    exists x. split; [exact Hx|].
    unfold cost_to_go_at. rewrite (get_col_ok _ _ _ Hx), bind_Ok.
    apply cost_to_go_ok; try assumption.
    rewrite Forall_lookup in HX. apply (HX t).
    rewrite lookup_take_lt by lia. exact Hx. }
  rewrite cost_to_go_trace_fill.
  destruct (fill_loop (cost_to_go_at P Xtraj) steps 0%nat (np_empty junk steps))
    as (pv & Hrun & HL & _ & Hall).
  - rewrite np_empty_length. lia.
  - intros t Ht. destruct (Hstep t ltac:(lia)) as (x & _ & Hc). eauto.
  - rewrite np_empty_length in HL. exists pv.
    split; [exact Hrun|]. split; [exact HL|].
    intros t x Ht Hx. destruct (Hstep t Ht) as (x' & Hx' & Hc).
    pose proof (eq_trans (eq_sym Hx) Hx') as Heq. inversion Heq; subst x'.
    destruct (Hall t ltac:(lia)) as (c & Hc' & Hq).
    rewrite Hc in Hc'. inversion Hc'; subst c. exact Hq.
Qed.

(** X17: the cost-to-go loop accepts the trajectory of the first MPC loop:
    for a 4x4 matrix [P], run on the [Xtraj] of a loop that returned, it
    returns one value per step, [x^T P x] for that step's state. *)
Theorem cost_to_go_after_mpc {Mem : Type} (solve : solver Mem)
    (jX : nat -> vec) (jU jJ : nat -> xfloat) (junk : nat -> R)
    (p : Problem) (mem : Mem) (x0 : vec) (steps : nat) (P : mat)
    (final : nb_state Mem) :
  length P = 4%nat -> Forall (fun row => length row = 4%nat) P ->
  mpc_loop_first solve jX jU jJ p mem x0 steps = Ok final ->
  exists pv,
    cost_to_go_trace junk P (st_Xtraj final) steps = Ok pv /\ length pv = steps /\
    forall t x, (t < steps)%nat -> st_Xtraj final !! t = Some x ->
      pv !! t = Some (quad_form x P).
Proof.
  intros HP HR Hrun.
  pose proof (mpc_loop_first_constrained_rel solve jX jU jJ p mem x0 steps) as Hrel.
  rewrite Hrun in Hrel.
  destruct (mpc_loop_constrained solve jX jU jJ p mem x0 steps) as [final'|e] eqn:Hc;
    cbn [result_rel] in Hrel; [|contradiction].
  assert (st_Xtraj final = st_Xtraj final') as EX.
  { apply (f_equal st_Xtraj) in Hrel. cbn in Hrel. symmetry. exact Hrel. }
  destruct (mpc_run_as_trajectory solve jX jU jJ p mem x0 steps final' Hc)
    as (LX & _ & _ & _ & Hstep).
  destruct (cost_to_go_trace_ok junk P (st_Xtraj final) steps HP HR)
    as (pv & Hpv & HL & Hval).
  - rewrite EX. lia.
  - apply Forall_lookup. intros t x Hx.
    assert (t < steps)%nat as Ht.
    { apply lookup_lt_Some in Hx. rewrite length_take in Hx. lia. }
    rewrite lookup_take_lt in Hx by lia. rewrite EX in Hx.
    destruct (Hstep t Ht) as (xt & a & K1 & K2 & _).
    pose proof (eq_trans (eq_sym Hx) K1) as Heq. inversion Heq. exact K2.
  - exists pv. split; [exact Hpv|]. split; [exact HL|].
    intros t x Ht Hx. apply Hval; assumption.
Qed.

Lemma cost_to_go_after_mpc_witness :
  exists final pv,
    mpc_loop_first idle_solver junk_col junk_float junk_float
                   small_mpc tt x0_mpc 2 = Ok final /\
    cost_to_go_trace (fun _ => 7) (np_eye 4) (st_Xtraj final) 2 = Ok pv /\
    length pv = 2%nat.
Proof.
  destruct (cost_to_go_after_mpc idle_solver junk_col junk_float junk_float
              (fun _ => 7) small_mpc tt x0_mpc 2 (np_eye 4)
              (MkState small_mpc (Some (discrete_step x0_mpc [0])) (Some [[0]]) tt
                 (discrete_step (discrete_step x0_mpc [0]) [0])
                 [x0_mpc; discrete_step x0_mpc [0]]
                 (np_empty junk_float 2) [Finite 0; Finite 0]))
    as (pv & Hpv & HL & _).
  - reflexivity.
  - repeat constructor.
  - vm_compute. reflexivity.
  - eexists. exists pv. split; [vm_compute; reflexivity|]. split; [exact Hpv|exact HL].
Defined.

(** ** The builders *)

Lemma stage_term_in_range (N k : nat) :
  (k < N)%nat -> sexpr_in_range N (stage_term k) = true.
Proof.
  intros Hk. unfold stage_term. cbn [sexpr_in_range expr_in_range].
  apply andb_true_intro. split; [apply Nat.leb_le; lia|apply Nat.ltb_lt; lia].
Qed.

Lemma dynamics_in_range (N k : nat) :
  (k < N)%nat -> constr_in_range N (dynamics k) = true.
Proof.
  intros Hk. unfold dynamics. cbn [constr_in_range expr_in_range].
  repeat (apply andb_true_intro; split);
    try (apply Nat.leb_le; lia); apply Nat.ltb_lt; lia.
Qed.

Lemma build_loop_objective_in_range (ic : nat -> list constr) (N n : nat) :
  (n <= N)%nat -> sexpr_in_range N (fst (build_loop ic n)) = true.
Proof.
  induction n as [|n IH]; intros Hn; [reflexivity|].
  rewrite build_loop_S. cbn [build_body fst sexpr_in_range].
  rewrite IH by lia. rewrite stage_term_in_range by lia. reflexivity.
Qed.

(** X18: the input-constraint builder indexes its variables within their
    shapes: every [X[:,k]] it writes has [k <= N] and every [U[:,k]] has
    [k < N], provided the appended constraints do. *)
Theorem mpc_constrained_in_range (P : mat) (ic : nat -> list constr) (N : nat) :
  (forall k, (k < N)%nat -> forallb (constr_in_range N) (ic k) = true) ->
  problem_in_range N (mpc_constrained P ic N) = true.
Proof.
  intros Hic. unfold problem_in_range, mpc_constrained.
  cbn [p_objective p_constraints sexpr_in_range expr_in_range].
  rewrite build_loop_objective_in_range by lia.
  rewrite Nat.leb_refl. cbn [andb].
  rewrite build_loop_constraints. cbn [forallb constr_in_range expr_in_range andb].
  apply forallb_forall. intros c Hc. apply in_flat_map in Hc as (k & Hk & Hc).
  apply in_seq in Hk. destruct Hc as [<-|Hc].
  - apply dynamics_in_range. lia.
  - specialize (Hic k ltac:(lia)). rewrite forallb_forall in Hic. apply Hic. exact Hc.
Qed.

Lemma mpc_constrained_in_range_witness :
  problem_in_range 3 (mpc_constrained (np_eye 4) (input_bound 1) 3) = true.
Proof.
  apply (mpc_constrained_in_range (np_eye 4) (input_bound 1) 3).
  intros k Hk. unfold input_bound. cbn [forallb constr_in_range expr_in_range].
  rewrite andb_true_r. apply Nat.ltb_lt. exact Hk.
Defined.

Lemma quad_stage_scaled (a b c d e : R) :
  quad_form [a; b; c; d] Qd + quad_form [e] Rd =
  (dotp [a; b; c; d] (mat_vec Q [a; b; c; d]) + dotp [e] (mat_vec Rmat [e])) * dt.
Proof.
  unfold quad_form, Qd, Rd, Q, Rmat, dt.
  cbn -[Rplus Rmult Rdiv Ropp]. lra.
Qed.

Lemma stage_term_value (xi : vec) (v : valuation) (k : nat) :
  length (column v VarX k) = 4%nat -> length (column v VarU k) = 1%nat ->
  exists c, stage_cost (column v VarX k) (column v VarU k) = Ok c /\
            eval_s xi v (stage_term k) = c * dt /\ 0 <= eval_s xi v (stage_term k).
Proof.
  intros Hx Hu. unfold stage_term. cbn [eval_s eval].
  destruct (column v VarX k) as [|a [|b [|c [|d [|? ?]]]]]; try discriminate Hx.
  destruct (column v VarU k) as [|e [|? ?]]; try discriminate Hu.
  eexists. split; [apply stage_cost_value|].
  rewrite quad_stage_scaled. split; [reflexivity|].
  rewrite stage_cost_expand.
  pose proof (Rle_0_sqr a). pose proof (Rle_0_sqr b). pose proof (Rle_0_sqr c).
  pose proof (Rle_0_sqr d). pose proof (Rle_0_sqr e). unfold Rsqr, dt in *. nra.
Qed.

Lemma sum_upto_nonneg (N : nat) (f : nat -> R) :
  (forall k, (k < N)%nat -> 0 <= f k) -> 0 <= sum_upto N f.
Proof.
  induction N as [|N IH]; intros H; cbn [sum_upto]; [lra|].
  pose proof (IH (fun k Hk => H k (Nat.lt_lt_succ_r _ _ Hk))).
  pose proof (H N (Nat.lt_succ_diag_r N)). lra.
Qed.

Lemma sum_upto_zero (N : nat) (f : nat -> R) :
  (forall k, (k < N)%nat -> f k = 0) -> sum_upto N f = 0.
Proof.
  induction N as [|N IH]; intros H; cbn [sum_upto]; [reflexivity|].
  rewrite IH by (intros k Hk; apply H; lia). rewrite H by lia. lra.
Qed.

Lemma well_shaped_columns (N : nat) (v : valuation) :
  well_shaped N v ->
  (forall k, (k <= N)%nat -> length (column v VarX k) = 4%nat) /\
  (forall k, (k < N)%nat -> length (column v VarU k) = 1%nat).
Proof.
  intros (LX & HX & LU & HU). split; intros k Hk; cbn [column].
  - destruct (lookup_lt_is_Some_2 (v_X v) k) as [x Hx]; [lia|].
    rewrite (nth_lookup_Some _ _ _ _ Hx).
    rewrite Forall_lookup in HX. apply (HX k x Hx).
  - destruct (lookup_lt_is_Some_2 (v_U v) k) as [u Hu]; [lia|].
    rewrite (nth_lookup_Some _ _ _ _ Hu).
    rewrite Forall_lookup in HU. apply (HU k u Hu).
Qed.

Lemma zero_valuation_columns (N : nat) :
  (forall k, (k <= N)%nat -> column (zero_valuation N) VarX k = [0; 0; 0; 0]) /\
  (forall k, (k < N)%nat -> column (zero_valuation N) VarU k = [0]).
Proof.
  split; intros k Hk; cbn [column zero_valuation v_X v_U];
    apply nth_lookup_Some; apply lookup_replicate_2; lia.
Qed.

Lemma dotp_zero4 (y : vec) : dotp [0; 0; 0; 0] y = 0.
Proof.
  destruct y as [|y1 [|y2 [|y3 [|y4 y]]]]; unfold dotp;
    cbn -[Rplus Rmult]; lra.
Qed.

Lemma discrete_step_zero : discrete_step [0; 0; 0; 0] [0] = [0; 0; 0; 0].
Proof.
  unfold discrete_step, Ad, Bd, A, B, dim_x, dt, Plant.m, Plant.g, Plant.M, Plant.l.
  cbn -[Rplus Rmult Rdiv Ropp]. repeat (f_equal; try lra).
Qed.

Lemma stage_term_zero : quad_form [0; 0; 0; 0] Qd + quad_form [0] Rd = 0.
Proof.
  unfold quad_form, Qd, Rd, Q, Rmat, dt. cbn -[Rplus Rmult Rdiv Ropp]. lra.
Qed.

(** X20: at the origin the all-zero plan is a minimiser of the
    input-constrained problem: for a terminal weight [P] with
    [x^T P x >= 0] and appended constraints that hold at zero, the zero
    values of [X] and [U] satisfy all constraints for [x_init = 0] and give
    the objective the value 0, and no values of the declared shapes give it
    less. *)
Theorem origin_plan_is_optimal (P : mat) (ic : nat -> list constr) (N : nat)
    (xi : vec) (v : valuation) :
  (forall k, (k < N)%nat ->
     Forall (holds [0; 0; 0; 0] (zero_valuation N)) (ic k)) ->
  (forall x, length x = 4%nat -> 0 <= quad_form x P) ->
  well_shaped N v ->
  exists s,
    p_objective (mpc_constrained P ic N) = Minimize s /\
    feasible [0; 0; 0; 0] (zero_valuation N) (mpc_constrained P ic N) /\
    eval_s [0; 0; 0; 0] (zero_valuation N) s = 0 /\
    0 <= eval_s xi v s.
Proof.
  intros Hic HP Hv. eexists. split; [reflexivity|].
  destruct (zero_valuation_columns N) as [ZX ZU].
  destruct (well_shaped_columns N v Hv) as [WX WU].
  split; [|split].
  - unfold feasible. cbn [mpc_constrained p_constraints].
    apply holds_build_loop. unfold spec_constraints.
    split; [apply ZX; lia|]. split.
    + intros k Hk. rewrite !ZX by lia. rewrite ZU by lia.
      symmetry. exact discrete_step_zero.
    + exact Hic.
  - cbn [eval_s eval]. rewrite build_loop_objective.
    rewrite sum_upto_zero.
    + rewrite ZX by lia. unfold quad_form. rewrite dotp_zero4. lra.
    + intros k Hk. rewrite ZX by lia. rewrite ZU by lia. exact stage_term_zero.
  - cbn [eval_s eval]. rewrite build_loop_objective.
    assert (0 <= sum_upto N (fun k => quad_form (column v VarX k) Qd
                                      + quad_form (column v VarU k) Rd)) as H1.
    { apply sum_upto_nonneg. intros k Hk.
      destruct (stage_term_value xi v k (WX k ltac:(lia)) (WU k Hk)) as (c & _ & _ & Hc).
      exact Hc. }
    pose proof (HP (column v VarX N) (WX N (Nat.le_refl N))). lra.
Qed.

Lemma quad_form_eye_nonneg (x : vec) :
  length x = 4%nat -> 0 <= quad_form x (np_eye 4).
Proof.
  intros Hx.
  destruct x as [|a [|b [|c [|d [|? ?]]]]]; try discriminate Hx.
  unfold quad_form. cbn -[Rplus Rmult]. unfold delta. cbn -[Rplus Rmult].
  pose proof (Rle_0_sqr a). pose proof (Rle_0_sqr b). pose proof (Rle_0_sqr c).
  pose proof (Rle_0_sqr d). unfold Rsqr in *. lra.
Qed.

Lemma input_bound_holds_at_zero (u_max : R) (N k : nat) :
  0 <= u_max -> (k < N)%nat ->
  Forall (holds [0; 0; 0; 0] (zero_valuation N)) (input_bound u_max k).
Proof.
  intros Hu Hk. destruct (zero_valuation_columns N) as [_ ZU].
  unfold input_bound. constructor; [|constructor].
  cbn [holds eval]. rewrite ZU by lia. constructor; [|constructor].
  rewrite Rabs_R0. exact Hu.
Qed.

Lemma origin_plan_is_optimal_witness :
  exists s,
    p_objective (mpc_constrained (np_eye 4) (input_bound 1) 2) = Minimize s /\
    feasible [0; 0; 0; 0] (zero_valuation 2) (mpc_constrained (np_eye 4) (input_bound 1) 2) /\
    eval_s [0; 0; 0; 0] (zero_valuation 2) s = 0 /\
    0 <= eval_s x0_mpc (MkValuation [x0_mpc; x0_mpc; x0_mpc] [[1]; [2]]) s.
Proof.
  apply (origin_plan_is_optimal (np_eye 4) (input_bound 1) 2 x0_mpc
           (MkValuation [x0_mpc; x0_mpc; x0_mpc] [[1]; [2]])).
  - intros k Hk. apply input_bound_holds_at_zero; [lra|exact Hk].
  - exact quad_form_eye_nonneg.
  - unfold well_shaped. cbn [v_X v_U]. repeat split; repeat constructor.
Defined.

Lemma first_loop_is_build_loop (N : nat) :
  foldl (build_body_first (fun k => [dynamics k]))
        (SZero, [CEq (ECol VarX 0) EParam]) (seq 0 N)
  = build_loop (fun _ => []) N.
Proof.
  induction N as [|N IH]; [reflexivity|].
  rewrite build_loop_S, seq_S, foldl_app. cbn [foldl Nat.add]. rewrite IH.
  unfold build_body_first, build_body. cbn [fst snd].
  rewrite app_nil_r. reflexivity.
Qed.

(** X21: the three builders make the same program up to the terminal
    term: with the dynamics filled in, the first builder's constraints and
    variables are those of the terminal-cost builder and of the
    input-constraint builder with nothing appended, and their objectives
    are the first builder's objective plus the terminal term. *)
Theorem builders_differ_by_terminal_term (P : mat) (qf : sexpr) (N : nat) :
  exists s cs,
    mpc_first (fun k => [dynamics k]) N
      = MkProblem (4, N + 1)%nat (1, N)%nat (Minimize s) cs /\
    mpc_terminal qf N
      = MkProblem (4, N + 1)%nat (1, N)%nat (Minimize (SAdd s qf)) cs /\
    mpc_constrained P (fun _ => []) N
      = MkProblem (4, N + 1)%nat (1, N)%nat
                  (Minimize (SAdd s (SQuad (ECol VarX N) P))) cs /\
    cs = CEq (ECol VarX 0) EParam :: map dynamics (seq 0 N).
Proof.
  exists (fst (build_loop (fun _ => []) N)), (snd (build_loop (fun _ => []) N)).
  split; [|split; [|split]].
  - unfold mpc_first. rewrite first_loop_is_build_loop. reflexivity.
  - reflexivity.
  - reflexivity.
  - rewrite build_loop_constraints.
    assert (forall l : list nat,
              flat_map (fun k => [dynamics k]) l = map dynamics l) as ->;
      [|reflexivity].
    intros l. induction l as [|k l IH]; [reflexivity|].
    cbn [flat_map map app]. rewrite IH. reflexivity.
Qed.
